(** * go-plotly generator: the renderer (package generator)

    A shallow embedding of the renderer of the go-plotly code generator:
    the identifier and literal escaping helpers ([cleanName], [cleanValue]),
    the assembly of the type graph handed to the templates ([WriteTrace],
    [WriteLayout], [WriteConfig], [WriteUnmarshal]) and the persistence
    wrappers ([CreateTrace], [CreateLayout], [CreateConfig],
    [CreateUnmarshal]).

    Go strings are byte sequences: they are modelled by [string], whose
    characters are the 256 byte values.  Go maps are [gmap]s, slices are
    lists. *)

From Stdlib Require Import Ascii String OrderedTypeEx.
From stdpp Require Import base option list sorting strings pretty gmap.

#[local] Set Warnings "-clear-no-such-hyp".

(** ** Byte strings *)

Module Bytes.

(** The bytes of a string, in order. *)
Fixpoint bytes (s : string) : list ascii :=
  match s with
  | EmptyString => []
  | String b s' => b :: bytes s'
  end.

(** [strings.Contains(s, sub)] as a proposition: [sub] occurs in [s]. *)
Definition Contains (s sub : string) : Prop :=
  ∃ p q, s = p +:+ sub +:+ q.

(** [strings.ToLower] on ASCII input: the bytes 'A'..'Z' are moved to
    'a'..'z', every other byte is kept. *)
Definition lower_byte (b : ascii) : ascii :=
  let n := nat_of_ascii b in
  if (65 <=? n)%nat && (n <=? 90)%nat then ascii_of_nat (n + 32) else b.

(** The concatenation of a list of strings. *)
Definition concat_strings (l : list string) : string :=
  foldr String.append "" l.

Fixpoint ToLower (s : string) : string :=
  match s with
  | EmptyString => EmptyString
  | String b s' => String (lower_byte b) (ToLower s')
  end.

End Bytes.

(** ** Namer: identifier synthesis and literal escaping *)

Module Namer.
Import Bytes.

(** symbolMap translates a symbol into valid go identifier: the flat
    argument list of [strings.NewReplacer], old and new strings
    alternating. *)
Definition symbolMap : list string :=
  [ "="; "Eq";
    ">"; "Gt";
    "-"; "Hyphen";
    "<"; "Lt";
    "|"; "Or";
    "/"; "Slash";
    "\"; "Doublebackslash";
    "^"; "Cape";
    "("; "Lpar";
    ")"; "Rpar";
    "["; "Lbracket";
    "]"; "Rbracket";
    "+"; "Plus";
    "?"; "Question";
    "$"; "Dollar" ].

(** The (old, new) pairs of a flat argument list. *)
Fixpoint oldnew_pairs (oldnew : list string) : list (string * string) :=
  match oldnew with
  | old :: new :: rest => (old, new) :: oldnew_pairs rest
  | _ => []
  end.

(** [strings.NewReplacer]: when every old string is a single byte the
    replacer is a table from bytes to replacement strings.  The table is
    filled from the last pair to the first, so for a byte listed twice
    the first pair wins. *)
Fixpoint replacement (pairs : list (string * string)) (b : ascii)
  : option string :=
  match pairs with
  | [] => None
  | (old, new) :: rest =>
      if decide (old = String b EmptyString) then Some new
      else replacement rest b
  end.

Definition NewReplacer (oldnew : list string) : ascii → option string :=
  replacement (oldnew_pairs oldnew).

(** [Replacer.Replace] of the byte-to-string replacer: one pass over the
    input bytes; each byte is either copied or replaced by its table
    entry, and what has been emitted is not looked at again. *)
Fixpoint Replace (r : ascii → option string) (s : string) : string :=
  match s with
  | EmptyString => EmptyString
  | String b s' =>
      match r b with
      | Some new => new +:+ Replace r s'
      | None => String b (Replace r s')
      end
  end.

Definition cleanName (name : string) : string :=
  let replacer := NewReplacer symbolMap in
  Replace replacer name.

(** [strings.ReplaceAll(s, old, new)] for a non-empty [old]: the
    non-overlapping occurrences of [old] are replaced from left to right.
    [skip] counts the bytes of the input that belong to an occurrence
    already replaced. *)
Fixpoint ReplaceAll_from (skip : nat) (s old new : string) : string :=
  match s with
  | EmptyString => EmptyString
  | String b s' =>
      match skip with
      | S k => ReplaceAll_from k s' old new
      | O =>
          if String.prefix old s
          then new +:+ ReplaceAll_from (String.length old - 1) s' old new
          else String b (ReplaceAll_from 0 s' old new)
      end
  end.

Definition ReplaceAll (s old new : string) : string :=
  ReplaceAll_from 0 s old new.

Definition cleanValue (value : string) : string :=
  ReplaceAll value "\" "\\".

Fixpoint contains (s : list string) (e : string) : bool :=
  match s with
  | [] => false
  | a :: rest => if decide (a = e) then true else contains rest e
  end.

(** The raw symbols of the table: the first byte of each old string. *)
Definition rawSymbols : list ascii :=
  flat_map (λ p, bytes (fst p)) (oldnew_pairs symbolMap).

(** The replacement words of the table. *)
Definition symbolWords : list string :=
  map snd (oldnew_pairs symbolMap).

(** Decoding of an escaped literal, after the words of the
    specification: each doubled backslash collapses back to one. *)
Fixpoint unescape (s : string) : string :=
  match s with
  | EmptyString => EmptyString
  | String b s' =>
      match s' with
      | String b' s'' =>
          if decide (b = "\"%char ∧ b' = "\"%char)
          then String "\" (unescape s'')
          else String b (unescape s')
      | EmptyString => String b EmptyString
      end
  end.

(** Number of backslashes in a string. *)
Fixpoint count_backslash (s : string) : nat :=
  match s with
  | EmptyString => 0
  | String b s' =>
      (if decide (b = "\"%char) then 1 else 0) + count_backslash s'
  end.

End Namer.

(** ** Data model of the type graph *)

Module Model.

(** Go [error] values.  [Errorf prefix err] is
    [fmt.Errorf(prefix + "%w", err)]; [Panic] stands for a run-time
    panic, which aborts the call without producing an error value. *)
Inductive error : Type :=
| External (msg : string)
| Errorf (prefix : string) (err : error)
| Panic (msg : string).

(** The descriptor types are declared in a file of the package other
    than the renderer; the renderer reads and writes the fields below. *)
Record structField : Type := {
  field_Name : string;
  field_JSONName : string;
  field_Type : string;
  field_Description : list string;
}.

Record sstruct : Type := {
  sstruct_Name : string;
  sstruct_Description : string;
  sstruct_Fields : list structField;
}.

(** Modelled from the spec: the element type of [enumFile.Values] is not
    declared in the renderer; an enum holds an ordered list of
    (raw value, synthesized variant identifier) pairs. *)
Record enumValue : Type := {
  value_Name : string;
  value_Value : string;
}.

Record enumFile : Type := {
  enum_Name : string;
  enum_Values : list enumValue;
}.

(** Modelled from the spec: a flag list has a Name and (flag name, flag
    value) pairs; the renderer only hands it to its template. *)
Record flagList : Type := {
  flag_Name : string;
  flag_Values : list (string * string);
}.

Record typeFile : Type := {
  MainType : sstruct;
  Objects : list sstruct;
  Enums : list enumFile;
  FlagLists : list flagList;
}.

(** unmarshalFile is a structure used to render unmarshal.tmpl *)
Record unmarshalFile : Type := {
  Types : list string;
}.

#[global] Instance structField_eq_dec : EqDecision structField.
Proof. solve_decision. Defined.
#[global] Instance sstruct_eq_dec : EqDecision sstruct.
Proof. solve_decision. Defined.
#[global] Instance enumValue_eq_dec : EqDecision enumValue.
Proof. solve_decision. Defined.
#[global] Instance enumFile_eq_dec : EqDecision enumFile.
Proof. solve_decision. Defined.
#[global] Instance flagList_eq_dec : EqDecision flagList.
Proof. solve_decision. Defined.
#[global] Instance typeFile_eq_dec : EqDecision typeFile.
Proof. solve_decision. Defined.

(** [s.Fields = fields] *)
Definition set_Fields (s : sstruct) (fields : list structField) : sstruct :=
  {| sstruct_Name := sstruct_Name s;
     sstruct_Description := sstruct_Description s;
     sstruct_Fields := fields |}.

(** [file.MainType.Fields = fields] *)
Definition set_MainFields (file : typeFile) (fields : list structField)
  : typeFile :=
  {| MainType := set_Fields (MainType file) fields;
     Objects := Objects file;
     Enums := Enums file;
     FlagLists := FlagLists file |}.

(** [file.Enums = enums] *)
Definition set_Enums (file : typeFile) (enums : list enumFile) : typeFile :=
  {| MainType := MainType file;
     Objects := Objects file;
     Enums := enums;
     FlagLists := FlagLists file |}.

(** [e.Values = append(e.Values, values...)] *)
Definition append_Values (values : list enumValue) (e : enumFile)
  : enumFile :=
  {| enum_Name := enum_Name e; enum_Values := enum_Values e ++ values |}.

(** The value-type tags of the schema, as listed in [valTypeMap]. *)
Inductive ValType : Type :=
| ValTypeDataArray | ValTypeEnum | ValTypeBoolean | ValTypeNumber
| ValTypeInteger | ValTypeString | ValTypeColor | ValTypeColorlist
| ValTypeColorscale | ValTypeAngle | ValTypeSubplotID | ValTypeFlagList
| ValTypeAny | ValTypeInfoArray.

(** valTypeMap maps between ValTypes and go types *)
Definition valTypeMap (v : ValType) : string :=
  match v with
  | ValTypeDataArray => "interface{}"
  | ValTypeEnum => "NO-TYPE"
  | ValTypeBoolean => "Bool"
  | ValTypeNumber => "float64"
  | ValTypeInteger => "int64"
  | ValTypeString => "String"
  | ValTypeColor => "Color"
  | ValTypeColorlist => "ColorList"
  | ValTypeColorscale => "ColorScale"
  | ValTypeAngle => "float64"
  | ValTypeSubplotID => "String"
  | ValTypeFlagList => "NO-TYPE"
  | ValTypeAny => "interface{}"
  | ValTypeInfoArray => "interface{}"
  end.

(** Modelled from the spec: the schema types are declared outside the
    renderer.  An attribute node carries a value-type tag; object nodes
    hold nested named attributes, enumerated nodes their legal raw
    values, flag-list nodes their flag names.  A set of named attributes
    is kept as a list: its order is the order in which one run of the
    generator visits the names. *)
#[warnings="-register-all"]
Inductive Attribute : Type :=
| AttrScalar (valType : ValType)
| AttrObject (attributes : list (string * Attribute))
| AttrEnumerated (values : list string)
| AttrFlagList (flags : list string).

Definition Names : Type := list (string * Attribute).

(** Induction on attribute trees: an object node may use the hypothesis
    for each of its nested attributes. *)
Fixpoint Attribute_tree_ind (P : Attribute → Prop)
    (scalar : ∀ valType, P (AttrScalar valType))
    (object : ∀ attributes,
        Forall (λ entry, P (snd entry)) attributes → P (AttrObject attributes))
    (enumerated : ∀ values, P (AttrEnumerated values))
    (flagList : ∀ flags, P (AttrFlagList flags))
    (attr : Attribute) {struct attr} : P attr :=
  match attr with
  | AttrScalar valType => scalar valType
  | AttrObject attributes =>
      object attributes
        ((fix all (l : list (string * Attribute))
            : Forall (λ entry, P (snd entry)) l :=
            match l with
            | [] => @List.Forall_nil _ _
            | entry :: rest =>
                @List.Forall_cons _ _ entry rest
                  (Attribute_tree_ind P scalar object enumerated flagList
                     (snd entry))
                  (all rest)
            end) attributes)
  | AttrEnumerated values => enumerated values
  | AttrFlagList flags => flagList flags
  end.

(** The fields of a trace the renderer reads: [trace.Type],
    [trace.Meta.Description], [trace.Attributes.Names] and
    [trace.LayoutAttributes.Names]. *)
Record Trace : Type := {
  trace_Type : string;
  trace_Meta_Description : string;
  trace_Attributes_Names : Names;
  trace_LayoutAttributes_Names : Names;
}.

(** [root.Schema]: [Traces], [Layout.LayoutAttributes.Names] and
    [Config.Names]. *)
Record Schema : Type := {
  Traces : gmap string Trace;
  Layout_LayoutAttributes_Names : Names;
  Config_Names : Names;
}.

Record Root : Type := {
  root_Schema : Schema;
}.

(** A [for k, v := range m] loop visits the entries of the map in an
    order that the language leaves unspecified and that changes from run
    to run: [order] is the order of one run. *)
Definition range_order {V} (m : gmap string V) (order : list (string * V))
  : Prop :=
  order ≡ₚ map_to_list m.

End Model.

(** ** Collaborators of the renderer *)

Module Env.
Import Model.

(** What the renderer calls and does not define: library functions
    ([xstrings.ToCamelCase], [sort.Sort], [format.Source], [path.Join])
    and code of the package kept in other files ([parseAttributes], the
    [Less] methods of the sortable slices, the four templates). *)
Class Externals : Type := {
  (** [xstrings.ToCamelCase] *)
  ToCamelCase : string → string;
  (** [traceFile.parseAttributes(typeName, parentName, names)], a method
      with a pointer receiver: the receiver is updated in place (registered objects, enums and flag
      lists) and the fields of the parsed attributes are returned. *)
  parseAttributes :
    typeFile → string → string → Names →
    error + (list structField * typeFile);
  (** [sort.Sort] on a slice with the given [Less] *)
  sortSort : ∀ A : Type, (A → A → bool) → list A → list A;
  (** [tmpl.ExecuteTemplate(w, name, data)] for each template: the text
      written to [w] and the error returned, if any. *)
  trace_tmpl : sstruct → string * option error;
  enum_tmpl : enumFile → string * option error;
  flaglist_tmpl : flagList → string * option error;
  unmarshal_tmpl : unmarshalFile → string * option error;
  (** [format.Source]: checks that the text is syntactically valid Go
      and returns it formatted. *)
  formatSource : string → error + string;
  (** [path.Join] of two elements *)
  pathJoin : string → string → string;
}.

(** Creator provices the functionality to create a file.  [Sink] is the
    state of the output destinations; [Create] opens a destination,
    [Write] and [Close] are the methods of the [io.WriteCloser] it
    returns. *)
Class Creator (Sink : Type) : Type := {
  Handle : Type;
  Create : string → Sink → (error + Handle) * Sink;
  Write : Handle → string → Sink → option error * Sink;
  Close : Handle → Sink → Sink;
}.

(** Modelled from the spec: the [Less] methods of the field slice and of
    the enum slice are declared outside the renderer; fields are ordered
    lexicographically by identifier, enums lexicographically by Name. *)
Definition Less_structFields (a b : structField) : bool :=
  String.ltb (field_Name a) (field_Name b).

Definition Less_enumFiles (a b : enumFile) : bool :=
  String.ltb (enum_Name a) (enum_Name b).

(** What [sort.Sort] asks of [Less]: a strict weak order. *)
Class StrictWeakOrder {A : Type} (less : A → A → bool) : Prop := {
  less_asym a b : less a b = true → less b a = false;
  less_negtrans a b c : less a b = false → less b c = false → less a c = false;
}.

(** A slice in ascending order: no element is less than an earlier one. *)
Definition ascending {A : Type} (less : A → A → bool) (l : list A) : Prop :=
  StronglySorted (λ a b, less b a = false) l.

(** What [sort.Sort] promises: it only swaps elements, and leaves the
    slice in ascending order.  The sort is not guaranteed to be stable. *)
Class SortContract `{Externals} : Prop := {
  sortSort_perm (A : Type) (less : A → A → bool) (l : list A) :
    sortSort A less l ≡ₚ l;
  sortSort_ascending (A : Type) (less : A → A → bool) (l : list A) :
    StrictWeakOrder less → ascending less (sortSort A less l);
}.

(** What the renderer relies on when it lays out a main type around a
    call of parseAttributes: the call registers objects, enums and flag
    lists in its receiver and leaves the main type as it is. *)
Class ParseFrame `{Externals} : Prop := {
  parseAttributes_MainType file typeName parentName names fields file' :
    parseAttributes file typeName parentName names = inr (fields, file') →
    MainType file' = MainType file;
}.

(** [sort.Strings]: [sort.Sort] with the byte-wise order of strings. *)
Definition sortStrings `{Externals} (l : list string) : list string :=
  sortSort string String.ltb l.

End Env.

(** ** The renderer *)

Module Renderer.
Import Bytes Model Env.

(** Renderer handles the process to render a Root to a Creator
    interface: [tmpl] and [fs] are the templates of [Externals] and the
    [Creator] in scope. *)
Record Renderer : Type := {
  root : Root;
}.

Definition nl : string := String "010" "".
Definition tab : string := String "009" "".
Definition quote : string := String "034" "".

Definition doNotEdit : string :=
  "// Code generated by go-plotly/generator. DO NOT EDIT.".

(** *** Writing to an [io.Writer]

    A computation that appends to the writer and may stop with an
    error; what was written before the error stays written. *)
Definition W (A : Type) : Type := string → (error + A) * string.

#[global] Instance W_ret : MRet W := λ A a w, (inr a, w).
#[global] Instance W_bind : MBind W := λ A B k m w,
  match m w with
  | (inl err, w') => (inl err, w')
  | (inr a, w') => k a w'
  end.

Definition fail {A} (err : error) : W A := λ w, (inl err, w).

(** [fmt.Fprint(w, s)]; the error of the writer is not looked at. *)
Definition Fprint (s : string) : W unit := λ w, (inr (), w +:+ s).

Definition ExecuteTemplate {D} (t : D → string * option error) (data : D)
  : W unit :=
  λ w, let '(out, err) := t data in
       (match err with Some e => inl e | None => inr () end, w +:+ out).

(** [for i := range l { err := body(l[i]); if err != nil { return err } }] *)
Fixpoint forRange {A} (l : list A) (body : A → W unit) : W unit :=
  match l with
  | [] => mret ()
  | x :: rest => body x ;; forRange rest body
  end.

Section with_externals.
Context `{Externals}.

(** The tail shared by the three type-graph writers: the main type,
    then the objects, the enums and the flag lists. *)
Definition executeTemplates (traceFile : typeFile) : W unit :=
  ExecuteTemplate trace_tmpl (MainType traceFile) ;;
  forRange (Objects traceFile) (ExecuteTemplate trace_tmpl) ;;
  forRange (Enums traceFile) (ExecuteTemplate enum_tmpl) ;;
  forRange (FlagLists traceFile) (ExecuteTemplate flaglist_tmpl).

(** The text of the templates of a type graph when none of them
    fails. *)
Definition templatesText (traceFile : typeFile) : string :=
  fst (trace_tmpl (MainType traceFile)) +:+
  concat_strings (map (λ o, fst (trace_tmpl o)) (Objects traceFile)) +:+
  concat_strings (map (λ e, fst (enum_tmpl e)) (Enums traceFile)) +:+
  concat_strings (map (λ f, fst (flaglist_tmpl f)) (FlagLists traceFile)).

(** [traceFile.MainType.Fields = append(traceFile.MainType.Fields, fields...)] *)
Definition appendFields (traceFile : typeFile) (fields : list structField)
  : typeFile :=
  set_MainFields traceFile (sstruct_Fields (MainType traceFile) ++ fields).

(** *** WriteTrace *)

Definition discriminator : structField :=
  {| field_Name := "Type";
     field_JSONName := "type";
     field_Type := "TraceType";
     field_Description := ["is the type of the plot"] |}.

(** The type graph of a trace, up to the point where text is written.
    [Traces] maps a name to a pointer: for a name that is not in the map
    the read of [trace.Type] dereferences nil. *)
Definition traceTypeFile (r : Renderer) (traceName : string)
  : error + typeFile :=
  match Traces (root_Schema (root r)) !! traceName with
  | None => inl (Panic "nil pointer dereference")
  | Some trace =>
      let traceFile :=
        {| MainType :=
             {| sstruct_Name := ToCamelCase (trace_Type trace);
                sstruct_Description := trace_Meta_Description trace;
                sstruct_Fields := [discriminator] |};
           Objects := [];
           Enums := [];
           FlagLists := [] |} in
      match parseAttributes traceFile
              (sstruct_Name (MainType traceFile))
              (sstruct_Name (MainType traceFile))
              (trace_Attributes_Names trace) with
      | inl err => inl (Errorf "cannot parse attributes, " err)
      | inr (fields, traceFile) => inr (appendFields traceFile fields)
      end
  end.

(** The text written by the [fmt.Fprintf] call of WriteTrace. *)
Definition traceHeader (mainName traceName : string) : string :=
  "package grob" +:+ nl +:+ nl +:+
  doNotEdit +:+ nl +:+ nl +:+
  "var TraceType" +:+ mainName +:+ " TraceType = " +:+
    quote +:+ traceName +:+ quote +:+ nl +:+ nl +:+
  "func (trace *" +:+ mainName +:+ ") GetType() TraceType {" +:+ nl +:+
  tab +:+ "return TraceType" +:+ mainName +:+ nl +:+
  "}" +:+ nl.

(** WriteTrace writes a trace by name to a writer *)
Definition WriteTrace (r : Renderer) (traceName : string) : W unit :=
  match traceTypeFile r traceName with
  | inl err => fail err
  | inr traceFile =>
      Fprint (traceHeader (sstruct_Name (MainType traceFile)) traceName) ;;
      executeTemplates traceFile
  end.

(** *** WriteLayout *)

(** The loop over [r.root.Schema.Traces], visited in [order]. *)
Fixpoint layoutContributions (order : list (string * Trace))
    (traceFile : typeFile) : error + typeFile :=
  match order with
  | [] => inr traceFile
  | (name, trace) :: rest =>
      match parseAttributes traceFile (ToCamelCase name) "Layout"
              (trace_LayoutAttributes_Names trace) with
      | inl err => inl (Errorf "cannot parse attributes, " err)
      | inr (fields, traceFile) =>
          layoutContributions rest (appendFields traceFile fields)
      end
  end.

(** remove duplicate fields: [i] is the index of the next field,
    [fieldMap] holds the names met so far. *)
Fixpoint removeDuplicateFields_loop (i : nat) (fields : list structField)
    (uniqueFields : list structField) (fieldMap : gmap string nat)
  : list structField :=
  match fields with
  | [] => uniqueFields
  | field :: rest =>
      match fieldMap !! field_Name field with
      | None =>
          removeDuplicateFields_loop (S i) rest
            (uniqueFields ++ [field])
            (<[field_Name field := i]> fieldMap)
      | Some _ =>
          removeDuplicateFields_loop (S i) rest uniqueFields fieldMap
      end
  end.

Definition removeDuplicateFields (fields : list structField)
  : list structField :=
  removeDuplicateFields_loop 0 fields [] ∅.

(** merge duplicate enums: [enumMap] holds, for each name met so far,
    the index of its enum in [uniqueEnums].  [None] is the run-time
    panic of an index outside [uniqueEnums]. *)
Fixpoint mergeDuplicateEnums_loop (enums : list enumFile)
    (uniqueEnums : list enumFile) (enumMap : gmap string nat)
  : option (list enumFile) :=
  match enums with
  | [] => Some uniqueEnums
  | enum :: rest =>
      match enumMap !! enum_Name enum with
      | None =>
          let uniqueEnums := uniqueEnums ++ [enum] in
          mergeDuplicateEnums_loop rest uniqueEnums
            (<[enum_Name enum := length uniqueEnums - 1]> enumMap)
      | Some previous =>
          match uniqueEnums !! previous with
          | None => None
          | Some e =>
              mergeDuplicateEnums_loop rest
                (<[previous := append_Values (enum_Values enum) e]> uniqueEnums)
                enumMap
          end
      end
  end.

Definition mergeDuplicateEnums (enums : list enumFile)
  : option (list enumFile) :=
  mergeDuplicateEnums_loop enums [] ∅.

(** The field appended for one label and one number. *)
Definition axisField (label : string) (i : nat) : structField :=
  {| field_Name := label +:+ "Axis" +:+ pretty i;
     field_Description := [label +:+ " Axis number " +:+ pretty i];
     field_JSONName := ToLower (label +:+ "axis" +:+ pretty i);
     field_Type := "Layout" +:+ label +:+ "axis" |}.

(** add multiple x and y axis:
    [for _, label := range []string{"X", "Y"} { for i := 2; i < 7; i++ ] *)
Definition axisFields : list structField :=
  flat_map (λ label, map (axisField label) (seq 2 5)) ["X"; "Y"].

Definition addAxisFields (traceFile : typeFile) : typeFile :=
  appendFields traceFile axisFields.

(** What WriteLayout does to the type graph between the parsing of the
    contributions and the writing of text. *)
Definition assembleLayout (traceFile : typeFile) : error + typeFile :=
  let traceFile :=
    set_MainFields traceFile
      (sortSort _ Less_structFields (sstruct_Fields (MainType traceFile))) in
  let traceFile :=
    set_Enums traceFile (sortSort _ Less_enumFiles (Enums traceFile)) in
  let traceFile :=
    set_MainFields traceFile
      (removeDuplicateFields (sstruct_Fields (MainType traceFile))) in
  match mergeDuplicateEnums (Enums traceFile) with
  | None => inl (Panic "index out of range")
  | Some uniqueEnums =>
      let traceFile := set_Enums traceFile uniqueEnums in
      inr (addAxisFields traceFile)
  end.

(** The fields and enums gathered from the layout's own attributes and
    from every trace, before sorting. *)
Definition layoutParsed (r : Renderer) (order : list (string * Trace))
  : error + typeFile :=
  let traceFile :=
    {| MainType :=
         {| sstruct_Name := "Layout";
            sstruct_Description := "Plot layout options";
            sstruct_Fields := [] |};
       Objects := [];
       Enums := [];
       FlagLists := [] |} in
  match parseAttributes traceFile
          (sstruct_Name (MainType traceFile))
          (sstruct_Name (MainType traceFile))
          (Layout_LayoutAttributes_Names (root_Schema (root r))) with
  | inl err => inl (Errorf "cannot parse attributes, " err)
  | inr (fields, traceFile) =>
      layoutContributions order (appendFields traceFile fields)
  end.

(** The type graph of the layout handed to the templates. *)
Definition layoutTypeFile (r : Renderer) (order : list (string * Trace))
  : error + typeFile :=
  match layoutParsed r order with
  | inl err => inl err
  | inr traceFile => assembleLayout traceFile
  end.

(** WriteLayout writes layout to the given writer *)
Definition WriteLayout (r : Renderer) (order : list (string * Trace))
  : W unit :=
  match layoutTypeFile r order with
  | inl err => fail err
  | inr traceFile =>
      Fprint ("package grob" +:+ nl +:+ nl +:+ doNotEdit) ;;
      executeTemplates traceFile
  end.

(** *** WriteConfig *)

Definition configTypeFile (r : Renderer) : error + typeFile :=
  let traceFile :=
    {| MainType :=
         {| sstruct_Name := "Config";
            sstruct_Description := "Plot config options";
            sstruct_Fields := [] |};
       Objects := [];
       Enums := [];
       FlagLists := [] |} in
  match parseAttributes traceFile
          (sstruct_Name (MainType traceFile))
          (sstruct_Name (MainType traceFile))
          (Config_Names (root_Schema (root r))) with
  | inl err => inl (Errorf "cannot parse attributes, " err)
  | inr (fields, traceFile) => inr (appendFields traceFile fields)
  end.

(** WriteConfig writes config to the given writer *)
Definition WriteConfig (r : Renderer) : W unit :=
  match configTypeFile r with
  | inl err => fail err
  | inr traceFile =>
      Fprint ("package grob" +:+ nl +:+ nl +:+ doNotEdit) ;;
      executeTemplates traceFile
  end.

(** *** WriteUnmarshal *)

Definition unmarshalTypes (order : list (string * Trace)) : list string :=
  sortStrings (map (λ entry, ToCamelCase (fst entry)) order).

(** WriteUnmarshal writes unmarshal to the given writer *)
Definition WriteUnmarshal (r : Renderer) (order : list (string * Trace))
  : W unit :=
  let file := {| Types := unmarshalTypes order |} in
  ExecuteTemplate unmarshal_tmpl file.

(** *** Persisting an artifact *)

(** The rendered text does not reach the sink: the writer failed, or
    the formatter refused what it wrote. *)
Definition rejected (write : W unit) : Prop :=
  (∃ err src, write "" = (inl err, src)) ∨
  (∃ err src, write "" = (inr (), src) ∧ formatSource src = inl err).

Section with_creator.
Context {Sink : Type} `{Creator Sink}.

(** The body shared by CreateTrace, CreateLayout, CreateConfig and
    CreateUnmarshal: render into a fresh buffer, format the source,
    and only then open the destination, write and close it. *)
Definition createFile (write : W unit) (name : string) (fs : Sink)
  : option error * Sink :=
  match write "" with
  | (inl err, _) => (Some err, fs)
  | (inr _, src) =>
      match formatSource src with
      | inl err => (Some (Errorf "cannot format source, " err), fs)
      | inr fmtsrc =>
          match Create name fs with
          | (inl err, fs) => (Some err, fs)
          | (inr file, fs) =>
              let '(err, fs) := Write file fmtsrc fs in
              let fs := Close file fs in
              match err with
              | Some err => (Some (Errorf "cannot write source, " err), fs)
              | None => (None, fs)
              end
          end
      end
  end.

(** CreateTrace creates a file with the content of a trace by name *)
Definition CreateTrace (r : Renderer) (dir name : string) (fs : Sink)
  : option error * Sink :=
  createFile (WriteTrace r name) (pathJoin dir (name +:+ "_gen.go")) fs.

(** CreateTraces creates all traces in the given directory: the names are
    gathered from the map, sorted, and created in that order up to the
    first error. *)
Fixpoint CreateTraces_loop (r : Renderer) (dir : string)
    (traceNames : list string) (fs : Sink) : option error * Sink :=
  match traceNames with
  | [] => (None, fs)
  | name :: rest =>
      match CreateTrace r dir name fs with
      | (Some err, fs) => (Some (Errorf "cannot create trace, " err), fs)
      | (None, fs) => CreateTraces_loop r dir rest fs
      end
  end.

Definition CreateTraces (r : Renderer) (order : list (string * Trace))
    (dir : string) (fs : Sink) : option error * Sink :=
  let traceNames := sortStrings (map fst order) in
  CreateTraces_loop r dir traceNames fs.

(** CreateLayout creates the layout file in the given directory *)
Definition CreateLayout (r : Renderer) (order : list (string * Trace))
    (dir : string) (fs : Sink) : option error * Sink :=
  createFile (WriteLayout r order) (pathJoin dir "layout_gen.go") fs.

(** CreateConfig creates the config file in the given director *)
Definition CreateConfig (r : Renderer) (dir : string) (fs : Sink)
  : option error * Sink :=
  createFile (WriteConfig r) (pathJoin dir "config_gen.go") fs.

(** CreateUnmarshal creates the unmarshal file on the given directory *)
Definition CreateUnmarshal (r : Renderer) (order : list (string * Trace))
    (dir : string) (fs : Sink) : option error * Sink :=
  createFile (WriteUnmarshal r order) (pathJoin dir "unmarshal_gen.go") fs.

End with_creator.

End with_externals.

End Renderer.

(** ** The duplicate policies, stated on lists

    What the two de-duplication loops of WriteLayout compute, without the
    index maps. *)

Module Policy.
Import Model.

(** The elements of [l] whose key is neither in [seen] nor the key of an
    earlier element of [l]. *)
Fixpoint firstByKey_from {A} (key : A → string) (seen : list string)
    (l : list A) : list A :=
  match l with
  | [] => []
  | x :: rest =>
      if decide (key x ∈ seen) then firstByKey_from key seen rest
      else x :: firstByKey_from key (key x :: seen) rest
  end.

(** The first element of [l] for each key, in the order of [l]. *)
Definition firstByKey {A} (key : A → string) (l : list A) : list A :=
  firstByKey_from key [] l.

(** The values of all the enums of [l] named [name], in the order of [l]. *)
Definition valuesNamed (l : list enumFile) (name : string) : list enumValue :=
  concat (map enum_Values (filter (λ x, enum_Name x = name) l)).

(** The enum [e] with the values of all the enums of [l] of its name. *)
Definition gather (l : list enumFile) (e : enumFile) : enumFile :=
  {| enum_Name := enum_Name e; enum_Values := valuesNamed l (enum_Name e) |}.

(** One enum per name, in the order of first occurrence, holding the
    concatenation of the value lists contributed under that name. *)
Definition mergedEnums (l : list enumFile) : list enumFile :=
  map (gather l) (firstByKey enum_Name l).

(** The state of the enum-merging loop after the enums [seen]: [uniqueEnums] holds one
    enum per name with the values gathered so far, and [enumMap] sends
    each name to the index of its enum. *)
Definition merge_invariant (seen uniqueEnums : list enumFile)
    (enumMap : gmap string nat) : Prop :=
  uniqueEnums = mergedEnums seen ∧
  ∀ name i, enumMap !! name = Some i ↔
            map enum_Name (firstByKey enum_Name seen) !! i = Some name.

(** A field typed as one of the two axis types. *)
Definition axisRelated (f : structField) : Prop :=
  field_Type f = "LayoutXaxis" ∨ field_Type f = "LayoutYaxis".

#[global] Instance axisRelated_dec f : Decision (axisRelated f).
Proof. unfold axisRelated. apply _. Defined.

(** The name, wire name and type of a field. *)
Definition signature (f : structField) : string * string * string :=
  (field_Name f, field_JSONName f, field_Type f).

(** The raw values of an enum. *)
Definition rawValues (e : enumFile) : list string :=
  map value_Value (enum_Values e).

End Policy.

(** ** Concrete collaborators

    Executable stand-ins for the collaborators of [Externals] and
    [Creator], used to run the renderer on concrete schemas. *)

Module Reference.
Import Bytes Namer Model Env Renderer.

(** [xstrings.ToCamelCase] on lower-case ASCII words joined by single
    underscores, the shape of the schema's attribute names
    ("paper_bgcolor" gives "PaperBgcolor"): the first letter and every
    letter after an underscore are put in upper case and the underscores
    are dropped. *)
Definition upper_byte (b : ascii) : ascii :=
  let n := nat_of_ascii b in
  if (97 <=? n)%nat && (n <=? 122)%nat then ascii_of_nat (n - 32) else b.

Fixpoint camel (up : bool) (s : string) : string :=
  match s with
  | EmptyString => EmptyString
  | String b s' =>
      if decide (b = "_"%char) then camel true s'
      else String (if up then upper_byte b else b) (camel false s')
  end.

Definition camelCase (s : string) : string := camel true s.

(** The insertion sort that [sort.Sort] runs on slices of fewer than seven
    elements (of at most twelve in recent releases of the library):
    [for i := a + 1; i < b; i++ { for j := i; j > a && data.Less(j, j-1); j-- { data.Swap(j, j-1) } }].
    The sorted prefix is kept in reverse, its last element first. *)
Fixpoint insertBack {A} (less : A → A → bool) (x : A) (revPrefix : list A)
  : list A :=
  match revPrefix with
  | [] => [x]
  | y :: rest =>
      if less x y then y :: insertBack less x rest else x :: revPrefix
  end.

Definition insertionSort (A : Type) (less : A → A → bool) (l : list A)
  : list A :=
  rev (fold_left (λ revPrefix x, insertBack less x revPrefix) l []).

(** Modelled from the spec: parseAttributes is defined in a file of the
    package that is not at hand.  For each named attribute: a primitive
    leaf becomes a field typed through [valTypeMap]; an object becomes a
    new type named by the parent type name followed by the normalized
    attribute name, parsed recursively and registered in Objects; an
    enumerated attribute becomes an enum of that name whose variants are
    the cleaned raw values; a flag list is registered likewise.  An
    object whose name is already registered with other fields is a type
    synthesis error. *)
Definition registerObject (file : typeFile) (object : sstruct)
  : error + typeFile :=
  match list_find (λ o, sstruct_Name o = sstruct_Name object) (Objects file) with
  | Some (_, o) =>
      if decide (o = object) then inr file
      else inl (External "type synthesis error")
  | None =>
      inr {| MainType := MainType file;
             Objects := Objects file ++ [object];
             Enums := Enums file;
             FlagLists := FlagLists file |}
  end.

Definition registerEnum (file : typeFile) (enum : enumFile) : typeFile :=
  {| MainType := MainType file;
     Objects := Objects file;
     Enums := Enums file ++ [enum];
     FlagLists := FlagLists file |}.

Definition registerFlagList (file : typeFile) (flags : flagList) : typeFile :=
  {| MainType := MainType file;
     Objects := Objects file;
     Enums := Enums file;
     FlagLists := FlagLists file ++ [flags] |}.

Definition enumVariant (raw : string) : enumValue :=
  {| value_Name := camelCase (cleanName raw); value_Value := cleanValue raw |}.

Definition attributeField (name type : string) : structField :=
  {| field_Name := camelCase name;
     field_JSONName := name;
     field_Type := type;
     field_Description := [] |}.

Fixpoint parseAttribute (file : typeFile) (parentName name : string)
    (attr : Attribute) {struct attr}
  : error + (structField * typeFile) :=
  let typeName := parentName +:+ camelCase name in
  match attr with
  | AttrScalar valType =>
      inr (attributeField name (valTypeMap valType), file)
  | AttrObject attributes =>
      let parseAll :=
        fix parseAll (file : typeFile) (names : list (string * Attribute))
          : error + (list structField * typeFile) :=
          match names with
          | [] => inr ([], file)
          | (n, a) :: rest =>
              match parseAttribute file typeName n a with
              | inl err => inl err
              | inr (field, file) =>
                  match parseAll file rest with
                  | inl err => inl err
                  | inr (fields, file) => inr (field :: fields, file)
                  end
              end
          end in
      match parseAll file attributes with
      | inl err => inl err
      | inr (fields, file) =>
          let object :=
            {| sstruct_Name := typeName;
               sstruct_Description := "";
               sstruct_Fields := fields |} in
          match registerObject file object with
          | inl err => inl err
          | inr file => inr (attributeField name typeName, file)
          end
      end
  | AttrEnumerated values =>
      let enum :=
        {| enum_Name := typeName; enum_Values := map enumVariant values |} in
      inr (attributeField name typeName, registerEnum file enum)
  | AttrFlagList flags =>
      let flagList :=
        {| flag_Name := typeName;
           flag_Values := map (λ f, (camelCase (cleanName f), cleanValue f)) flags |} in
      inr (attributeField name typeName, registerFlagList file flagList)
  end.

Fixpoint parseAttributes_spec (file : typeFile) (typeName parentName : string)
    (names : Names) : error + (list structField * typeFile) :=
  match names with
  | [] => inr ([], file)
  | (n, a) :: rest =>
      match parseAttribute file parentName n a with
      | inl err => inl err
      | inr (field, file) =>
          match parseAttributes_spec file typeName parentName rest with
          | inl err => inl err
          | inr (fields, file) => inr (field :: fields, file)
          end
      end
  end.

(** Stand-ins for the templates, which are not at hand: each prints the
    name of its argument and one line per field or value, and never
    fails. *)
Definition render_field (f : structField) : string :=
  tab +:+ field_Name f +:+ " " +:+ field_Type f +:+ " `json:" +:+
  quote +:+ field_JSONName f +:+ ",omitempty" +:+ quote +:+ "`" +:+ nl.

Definition render_struct (s : sstruct) : string * option error :=
  (nl +:+ "type " +:+ sstruct_Name s +:+ " struct {" +:+ nl +:+
   concat_strings (map render_field (sstruct_Fields s)) +:+ "}" +:+ nl,
   None).

Definition render_value (enumName : string) (v : enumValue) : string :=
  tab +:+ enumName +:+ value_Name v +:+ " " +:+ enumName +:+ " = " +:+
  quote +:+ value_Value v +:+ quote +:+ nl.

Definition render_enum (e : enumFile) : string * option error :=
  (nl +:+ "type " +:+ enum_Name e +:+ " string" +:+ nl +:+
   "const (" +:+ nl +:+
   concat_strings (map (render_value (enum_Name e)) (enum_Values e)) +:+
   ")" +:+ nl,
   None).

Definition render_flaglist (f : flagList) : string * option error :=
  (nl +:+ "type " +:+ flag_Name f +:+ " string" +:+ nl +:+
   "const (" +:+ nl +:+
   concat_strings
     (map (λ p, render_value (flag_Name f)
                  {| value_Name := fst p; value_Value := snd p |})
          (flag_Values f)) +:+
   ")" +:+ nl,
   None).

Definition render_unmarshal (u : unmarshalFile) : string * option error :=
  ("package grob" +:+ nl +:+
   concat_strings (map (λ t, "case TraceType" +:+ t +:+ ":" +:+ nl) (Types u)),
   None).

(** The collaborators, for a given formatter. *)
Definition externals (format : string → error + string) : Externals :=
  {| ToCamelCase := camelCase;
     parseAttributes := parseAttributes_spec;
     sortSort := insertionSort;
     trace_tmpl := render_struct;
     enum_tmpl := render_enum;
     flaglist_tmpl := render_flaglist;
     unmarshal_tmpl := render_unmarshal;
     formatSource := format;
     pathJoin := λ dir name, dir +:+ "/" +:+ name |}.

(** A formatter that accepts every text unchanged, and one that rejects
    every text. *)
Definition acceptAll (src : string) : error + string := inr src.
Definition rejectAll (src : string) : error + string :=
  inl (External "syntax error").

(** A sink that records the operations it is asked to perform; all of
    them succeed. *)
Inductive operation : Type :=
| OpCreate (name : string)
| OpWrite (name : string) (data : string)
| OpClose (name : string).

Definition recorder : Creator (list operation) :=
  {| Handle := string;
     Create := λ name fs, (inr name, fs ++ [OpCreate name]);
     Write := λ file data fs, (None, fs ++ [OpWrite file data]);
     Close := λ file fs, fs ++ [OpClose file] |}.

End Reference.

(** ** Example schemas *)

Module Examples.
Import Model Renderer.

Definition traceOf (type : string) (attributes layoutAttributes : Names)
  : Trace :=
  {| trace_Type := type;
     trace_Meta_Description := "";
     trace_Attributes_Names := attributes;
     trace_LayoutAttributes_Names := layoutAttributes |}.

Definition rendererOf (traces : gmap string Trace) (layout config : Names)
  : Renderer :=
  {| root :=
       {| root_Schema :=
            {| Traces := traces;
               Layout_LayoutAttributes_Names := layout;
               Config_Names := config |} |} |}.

(** A trace with the attributes "x", a data array, and "marker", an
    object with a colour. *)
Definition scatter : Trace :=
  traceOf "scatter"
    [("x", AttrScalar ValTypeDataArray);
     ("marker", AttrObject [("color", AttrScalar ValTypeColor)])]
    [].

Definition scatterRenderer : Renderer :=
  rendererOf {[ "scatter" := scatter ]} [] [("editable", AttrScalar ValTypeBoolean)].

(** Two traces that contribute the same layout enum with the value lists
    circle, square and square, triangle. *)
Definition shapesA : Trace :=
  traceOf "a" [] [("shape_type", AttrEnumerated ["circle"; "square"])].

Definition shapesB : Trace :=
  traceOf "b" [] [("shape_type", AttrEnumerated ["square"; "triangle"])].

Definition shapesRenderer : Renderer :=
  rendererOf {[ "a" := shapesA; "b" := shapesB ]} [] [].

Definition circleSquare : enumFile :=
  {| enum_Name := "ShapeType";
     enum_Values :=
       [ {| value_Name := "Circle"; value_Value := "circle" |};
         {| value_Name := "Square"; value_Value := "square" |} ] |}.

Definition squareTriangle : enumFile :=
  {| enum_Name := "ShapeType";
     enum_Values :=
       [ {| value_Name := "Square"; value_Value := "square" |};
         {| value_Name := "Triangle"; value_Value := "triangle" |} ] |}.

(** A schema without traces and attributes. *)
Definition emptyRenderer : Renderer := rendererOf ∅ [] [].

(** A layout with the two base axes. *)
Definition axesRenderer : Renderer :=
  rendererOf ∅
    [("xaxis", AttrObject [("visible", AttrScalar ValTypeBoolean)]);
     ("yaxis", AttrObject [("visible", AttrScalar ValTypeBoolean)]);
     ("width", AttrScalar ValTypeNumber)]
    [].

(** A layout with an attribute whose identifier is that of an appended
    axis field. *)
Definition collidingRenderer : Renderer :=
  rendererOf ∅
    [("xaxis", AttrObject []); ("x_axis2", AttrScalar ValTypeAny)]
    [].

End Examples.

(** ** Further example schemas *)

Module MoreExamples.
Import Model Renderer Examples.

(** A layout that declares the object "legend" twice, with other nested
    attributes the second time. *)
Definition clashingRenderer : Renderer :=
  rendererOf ∅
    [("legend", AttrObject [("x", AttrScalar ValTypeNumber)]);
     ("legend", AttrObject [])]
    [("legend", AttrObject [("x", AttrScalar ValTypeNumber)]);
     ("legend", AttrObject [])].

(** A template that writes a part of its text and fails. *)
Definition failing_tmpl {D} (data : D) : string * option error :=
  ("type ", Some (External "template: error calling index")).

(** The layout declares "width" as a number and the trace "a" declares it
    again, as an integer, among its layout attributes. *)
Definition widthTrace : Trace :=
  traceOf "a" [] [("width", AttrScalar ValTypeInteger)].

Definition widthRenderer : Renderer :=
  rendererOf {[ "a" := widthTrace ]}
    [("width", AttrScalar ValTypeNumber)] [].

(** The layout and the trace "a" both declare an attribute whose
    identifier is that of an appended axis field. *)
Definition axisTrace : Trace :=
  traceOf "a" [] [("x_axis2", AttrScalar ValTypeNumber)].

Definition axisRenderer : Renderer :=
  rendererOf {[ "a" := axisTrace ]}
    [("x_axis2", AttrScalar ValTypeAny)] [].

(** A trace whose attributes are a number and a flag list. *)
Definition hoverTrace : Trace :=
  traceOf "bar"
    [("width", AttrScalar ValTypeNumber);
     ("hoverinfo", AttrFlagList ["x"; "y"])]
    [].

Definition hoverRenderer : Renderer :=
  rendererOf {[ "bar" := hoverTrace ]} [] [].

End MoreExamples.

(** ** An in-memory sink *)

Module Disk.
Import Model Env.

(** The destinations that are open and the content of each file. *)
Record disk : Type := {
  opened : list string;
  files : gmap string string;
}.

(** A sink in memory whose [Create] and [Write] fail where the two oracles
    say so.  [Create] opens the file empty, [Write] appends to it, [Close]
    releases the handle. *)
Definition faulty (createFails writeFails : string → bool) : Creator disk :=
  {| Handle := string;
     Create := λ name d,
       if createFails name then (inl (External "create failed"), d)
       else (inr name,
             {| opened := name :: opened d;
                files := <[name := ""]> (files d) |});
     Write := λ file data d,
       if writeFails file then (Some (External "write failed"), d)
       else (None,
             {| opened := opened d;
                files := alter (λ old, old +:+ data) file (files d) |});
     Close := λ file d,
       {| opened := filter (λ h, h ≠ file) (opened d); files := files d |} |}.

End Disk.

(** * Properties *)

Import Bytes Namer Model Env Renderer Policy.

(** Decides a closed decidable proposition by evaluation. *)
Ltac by_evaluation :=
  lazymatch goal with
  | |- ?P => apply (bool_decide_unpack P); vm_compute; exact I
  end.

(** Case analysis on the membership of a variable in a concrete list. *)
Ltac by_evaluation_in H :=
  repeat (apply elem_of_cons in H as [->|H]; [by_evaluation |]);
  by apply elem_of_nil in H.

(** ** Byte strings *)

Section bytes_facts.

Lemma append_nil_l s : "" +:+ s = s.
Proof. reflexivity. Qed.

Lemma append_cons b s t : String b s +:+ t = String b (s +:+ t).
Proof. reflexivity. Qed.

Lemma bytes_app s t : bytes (s +:+ t) = bytes s ++ bytes t.
Proof.
  induction s as [|b s IH]; [done |].
  rewrite append_cons. simpl. by rewrite IH.
Qed.

Lemma append_assoc s t u : (s +:+ t) +:+ u = s +:+ t +:+ u.
Proof.
  induction s as [|b s IH]; [done |].
  by rewrite !append_cons, IH.
Qed.

Lemma append_nil_r s : s +:+ "" = s.
Proof.
  induction s as [|b s IH]; [done |].
  by rewrite append_cons, IH.
Qed.

Lemma length_append s t :
  String.length (s +:+ t) = String.length s + String.length t.
Proof.
  induction s as [|b s IH]; [done |].
  rewrite append_cons. simpl. by rewrite IH.
Qed.

Lemma Contains_bytes s sub : Contains s sub → bytes sub ⊆ bytes s.
Proof.
  intros (p & q & ->) b Hb. rewrite !bytes_app, !elem_of_app. auto.
Qed.

Lemma Contains_middle p sub q : Contains (p +:+ sub +:+ q) sub.
Proof. by exists p, q. Qed.



End bytes_facts.

(** ** Namer *)

Section namer_facts.

Lemma Replace_app r s t : Replace r (s +:+ t) = Replace r s +:+ Replace r t.
Proof.
  induction s as [|b s IH]; [done |].
  rewrite append_cons. simpl. destruct (r b) as [new|].
  - by rewrite IH, append_assoc.
  - by rewrite IH, append_cons.
Qed.

Lemma cleanName_app s t : cleanName (s +:+ t) = cleanName s +:+ cleanName t.
Proof. apply Replace_app. Qed.

Lemma replacement_Some pairs b new :
  replacement pairs b = Some new → (String b "", new) ∈ pairs.
Proof.
  induction pairs as [|[old new'] pairs IH]; simpl; [done |].
  case_decide as Hold.
  - intros [= <-]. subst old. apply elem_of_cons; by left.
  - intros Hr. apply elem_of_cons; right; auto.
Qed.

Lemma replacement_None pairs b :
  replacement pairs b = None → String b "" ∉ map fst pairs.
Proof.
  induction pairs as [|[old new'] pairs IH]; simpl.
  - intros _. apply not_elem_of_nil.
  - case_decide as Hold; [done |]. intros Hr.
    apply not_elem_of_cons. split; [congruence | auto].
Qed.

(** Every old string of the table is a single byte: the byte-to-string
    replacer is the one [strings.NewReplacer] builds for it. *)
Lemma symbolMap_single_bytes :
  Forall (λ p, String.length (fst p) = 1) (oldnew_pairs symbolMap).
Proof. repeat constructor. Qed.

Lemma symbolMap_olds :
  map fst (oldnew_pairs symbolMap) =
  ["="; ">"; "-"; "<"; "|"; "/"; "\"; "^"; "("; ")"; "["; "]"; "+"; "?"; "$"].
Proof. reflexivity. Qed.

Lemma rawSymbols_olds b :
  b ∈ rawSymbols ↔ String b "" ∈ map fst (oldnew_pairs symbolMap).
Proof.
  rewrite symbolMap_olds. unfold rawSymbols. simpl.
  rewrite !elem_of_cons, !elem_of_nil. split.
  - intros H; repeat (destruct H as [->|H]; [tauto |]); done.
  - intros H; repeat (destruct H as [[= ->]|H]; [tauto |]); done.
Qed.

Lemma symbolWords_clean :
  Forall (λ w, Forall (λ b, b ∉ rawSymbols) (bytes w)) symbolWords.
Proof.
  by_evaluation.
Qed.

Lemma cleanName_no_raw_symbol name b :
  b ∈ bytes (cleanName name) → b ∉ rawSymbols.
Proof.
  unfold cleanName. induction name as [|c name IH]; simpl.
  - intros H; by apply elem_of_nil in H.
  - destruct (NewReplacer symbolMap c) as [new|] eqn:Hr.
    + rewrite bytes_app, elem_of_app. intros [Hb|Hb]; [|auto].
      apply replacement_Some in Hr.
      assert (new ∈ symbolWords) as Hw.
      { unfold symbolWords. apply list_elem_of_fmap. by exists (String c "", new). }
      pose proof symbolWords_clean as Hall.
      rewrite Forall_forall in Hall. specialize (Hall _ Hw).
      rewrite Forall_forall in Hall. auto.
    + simpl. rewrite elem_of_cons. intros [->|Hb]; [|auto].
      apply replacement_None in Hr. by rewrite rawSymbols_olds.
Qed.

Lemma cleanName_old old new :
  (old, new) ∈ oldnew_pairs symbolMap → cleanName old = new.
Proof.
  simpl. rewrite !elem_of_cons, elem_of_nil.
  intros H; repeat (destruct H as [[= -> ->]|H]; [reflexivity |]); done.
Qed.

Lemma cleanName_other b :
  b ∉ rawSymbols → cleanName (String b "") = String b "".
Proof.
  intros Hb. unfold cleanName. simpl.
  destruct (NewReplacer symbolMap b) as [new|] eqn:Hr; [|done].
  apply replacement_Some in Hr. exfalso. apply Hb, rawSymbols_olds.
  apply list_elem_of_fmap. by exists (String b "", new).
Qed.

Lemma contains_elem_of s e : contains s e = true ↔ e ∈ s.
Proof.
  induction s as [|a s IH]; simpl.
  - rewrite elem_of_nil. naive_solver.
  - rewrite elem_of_cons. case_decide; naive_solver.
Qed.

Lemma prefix_backslash b s :
  String.prefix "\" (String b s) = bool_decide (b = "\"%char).
Proof.
  change (String.prefix "\" (String b s))
    with (if ascii_dec "\" b then String.prefix "" s else false).
  destruct (ascii_dec "\" b) as [<-|Hne].
  - by destruct s.
  - symmetry. apply bool_decide_eq_false. congruence.
Qed.

Lemma cleanValue_nil : cleanValue "" = "".
Proof. reflexivity. Qed.

Lemma cleanValue_cons b s :
  cleanValue (String b s) =
  if bool_decide (b = "\"%char) then "\\" +:+ cleanValue s
  else String b (cleanValue s).
Proof.
  unfold cleanValue, ReplaceAll.
  change (ReplaceAll_from 0 (String b s) "\" "\\")
    with (if String.prefix "\" (String b s)
          then "\\" +:+ ReplaceAll_from 0 s "\" "\\"
          else String b (ReplaceAll_from 0 s "\" "\\")).
  by rewrite prefix_backslash.
Qed.

Lemma cleanValue_backslash s :
  cleanValue (String "\" s) = String "\" (String "\" (cleanValue s)).
Proof. by rewrite cleanValue_cons. Qed.

Lemma cleanValue_other b s :
  b ≠ "\"%char → cleanValue (String b s) = String b (cleanValue s).
Proof.
  intros Hb. by rewrite cleanValue_cons, bool_decide_eq_false_2.
Qed.

Lemma cleanValue_app s t :
  cleanValue (s +:+ t) = cleanValue s +:+ cleanValue t.
Proof.
  induction s as [|b s IH]; [done |].
  rewrite append_cons. destruct (decide (b = "\"%char)) as [->|Hb].
  - by rewrite !cleanValue_backslash, IH.
  - by rewrite !cleanValue_other, IH.
Qed.

Lemma unescape_cleanValue value : unescape (cleanValue value) = value.
Proof.
  induction value as [|b s IH]; [done |].
  destruct (decide (b = "\"%char)) as [->|Hb].
  - rewrite cleanValue_backslash. simpl. by rewrite IH.
  - rewrite cleanValue_other by done.
    destruct (cleanValue s) as [|b' s'] eqn:Hs.
    + simpl in IH. by subst s.
    + rewrite <- IH.
      change (unescape (String b (String b' s')))
        with (if decide (b = "\"%char ∧ b' = "\"%char)
              then String "\" (unescape s')
              else String b (unescape (String b' s'))).
      case_decide as Hd; [tauto | done].
Qed.

Lemma length_cleanValue value :
  String.length (cleanValue value) =
  String.length value + count_backslash value.
Proof.
  induction value as [|b s IH]; [done |].
  destruct (decide (b = "\"%char)) as [->|Hb].
  - rewrite cleanValue_backslash. simpl. rewrite IH. lia.
  - rewrite cleanValue_other by done. simpl. rewrite IH.
    rewrite decide_False by done. lia.
Qed.

End namer_facts.

(** C7. Identifier synthesis: [cleanName] works on the table of the fifteen
    raw symbols "=", ">", "-", "<", "|", "/", "\", "^", "(", ")", "[", "]",
    "+", "?", "$", whose words are pairwise distinct; every occurrence of a
    raw symbol is replaced by its word and every other byte is copied, in
    one pass from left to right in which the text already emitted is not
    scanned again (the result of a concatenation is the concatenation of
    the results); no raw symbol occurs in the result; and "bottom-left"
    becomes a string that contains "Hyphen" and no "-". *)
Theorem C7_cleanName_replaces_raw_symbols :
  map fst (oldnew_pairs symbolMap) =
    ["="; ">"; "-"; "<"; "|"; "/"; "\"; "^"; "("; ")"; "["; "]"; "+"; "?"; "$"]
  ∧ NoDup rawSymbols ∧ NoDup symbolWords
  ∧ (∀ old new s1 s2, (old, new) ∈ oldnew_pairs symbolMap →
       cleanName (s1 +:+ old +:+ s2) = cleanName s1 +:+ new +:+ cleanName s2)
  ∧ (∀ b s1 s2, b ∉ rawSymbols →
       cleanName (s1 +:+ String b s2) = cleanName s1 +:+ String b (cleanName s2))
  ∧ (∀ name b, b ∈ bytes (cleanName name) → b ∉ rawSymbols)
  ∧ cleanName "bottom-left" = "bottomHyphenleft"
  ∧ Contains (cleanName "bottom-left") "Hyphen"
  ∧ ¬ Contains (cleanName "bottom-left") "-".
Proof.
  split_and!.
  - reflexivity.
  - by_evaluation.
  - by_evaluation.
  - intros old new s1 s2 Hin.
    by rewrite !cleanName_app, (cleanName_old old new).
  - intros b s1 s2 Hb.
    change (String b s2) with (String b "" +:+ s2).
    by rewrite !cleanName_app, cleanName_other.
  - apply cleanName_no_raw_symbol.
  - reflexivity.
  - exists "bottom", "left". reflexivity.
  - intros Hc. apply Contains_bytes in Hc.
    assert ("-"%char ∈ bytes (cleanName "bottom-left")) as Hin.
    { apply Hc. simpl. apply elem_of_cons; by left. }
    apply cleanName_no_raw_symbol in Hin. apply Hin.
    by_evaluation.
Qed.

(** C8. String-literal escaping: [cleanValue] doubles each backslash and
    copies every other byte, so the escaped text is longer than the value
    by the number of its backslashes; collapsing each doubled backslash of
    the escaped text back to one gives the value again; a value made of one
    backslash is embedded as two. *)
Theorem C8_cleanValue_round_trip :
  (∀ value, unescape (cleanValue value) = value)
  ∧ cleanValue "" = ""
  ∧ (∀ s, cleanValue (String "\" s) = String "\" (String "\" (cleanValue s)))
  ∧ (∀ b s, b ≠ "\"%char → cleanValue (String b s) = String b (cleanValue s))
  ∧ (∀ value, String.length (cleanValue value) =
              String.length value + count_backslash value)
  ∧ cleanValue "\" = "\\"
  ∧ unescape "\\" = "\".
Proof.
  split_and!.
  - apply unescape_cleanValue.
  - reflexivity.
  - apply cleanValue_backslash.
  - apply cleanValue_other.
  - apply length_cleanValue.
  - reflexivity.
  - reflexivity.
Qed.

(** ** The byte-wise order of strings and sorting *)

Section order_facts.

Lemma ltb_Lt s t : String.ltb s t = true ↔ String.compare s t = Lt.
Proof. unfold String.ltb. destruct (String.compare s t); naive_solver. Qed.

Lemma ltb_asym s t : String.ltb s t = true → String.ltb t s = false.
Proof.
  rewrite ltb_Lt. intros Hst. unfold String.ltb.
  rewrite String.compare_antisym, Hst. reflexivity.
Qed.

Lemma ltb_irrefl s : String.ltb s s = false.
Proof.
  destruct (String.ltb s s) eqn:Hs; [|done].
  by rewrite (ltb_asym _ _ Hs) in Hs.
Qed.

Lemma ltb_trans s t u :
  String.ltb s t = true → String.ltb t u = true → String.ltb s u = true.
Proof.
  rewrite !ltb_Lt.
  change String.compare with String_as_OT.cmp.
  rewrite !String_as_OT.cmp_lt. apply String_as_OT.lt_trans.
Qed.

(** The order is total: two strings of which neither is less than the
    other are equal. *)
Lemma ltb_total s t : String.ltb s t = false → String.ltb t s = false → s = t.
Proof.
  unfold String.ltb. rewrite (String.compare_antisym s t).
  destruct (String.compare t s) eqn:Hc; simpl; try done.
  intros _ _. symmetry. by apply String.compare_eq_iff.
Qed.

Lemma ltb_negtrans s t u :
  String.ltb s t = false → String.ltb t u = false → String.ltb s u = false.
Proof.
  intros Hst Htu. destruct (String.ltb s u) eqn:Hsu; [|done].
  destruct (String.ltb t s) eqn:Hts.
  - by rewrite (ltb_trans _ _ _ Hts Hsu) in Htu.
  - rewrite (ltb_total _ _ Hst Hts) in Hsu. congruence.
Qed.

#[global] Instance ltb_key_strict_weak {A} (key : A → string) :
  StrictWeakOrder (λ a b, String.ltb (key a) (key b)).
Proof.
  split.
  - intros a b. apply ltb_asym.
  - intros a b c. apply ltb_negtrans.
Qed.

#[global] Instance Less_structFields_strict_weak :
  StrictWeakOrder Less_structFields.
Proof. apply (ltb_key_strict_weak field_Name). Qed.

#[global] Instance Less_enumFiles_strict_weak :
  StrictWeakOrder Less_enumFiles.
Proof. apply (ltb_key_strict_weak enum_Name). Qed.

#[global] Instance ltb_strict_weak : StrictWeakOrder String.ltb.
Proof. apply (ltb_key_strict_weak id). Qed.

(** A list of strings in ascending order is determined by its elements:
    sorting under the byte-wise order has one possible result. *)
Lemma ascending_strings_unique (l1 l2 : list string) :
  ascending String.ltb l1 → ascending String.ltb l2 → l1 ≡ₚ l2 → l1 = l2.
Proof.
  unfold ascending. intros H1 H2 Hp.
  eapply (StronglySorted_unique_strong (λ a b, String.ltb b a = false));
    [|done..].
  intros a b _ _ Hab Hba. by apply ltb_total.
Qed.

(** In ascending order by key and without repeated keys, the keys are
    strictly increasing. *)
Lemma ascending_NoDup_strict {A} (key : A → string) (l : list A) :
  ascending (λ a b, String.ltb (key a) (key b)) l →
  NoDup (map key l) →
  StronglySorted (λ a b, String.ltb (key a) (key b) = true) l.
Proof.
  unfold ascending. induction 1 as [|x l Hl IH Hx]; simpl.
  - constructor.
  - intros [Hnotin Hnd]%NoDup_cons. constructor; [by apply IH |].
    rewrite Forall_forall in Hx |- *. intros y Hy.
    destruct (String.ltb (key x) (key y)) eqn:Hxy; [done |].
    exfalso. apply Hnotin.
    rewrite (ltb_total _ _ Hxy (Hx y Hy)).
    apply list_elem_of_fmap. by exists y.
Qed.

Lemma ascending_sublist {A} (less : A → A → bool) (l1 l2 : list A) :
  sublist l1 l2 → ascending less l2 → ascending less l1.
Proof.
  unfold ascending. intros Hsub Hl2. revert l1 Hsub.
  induction Hl2 as [|x l2 Hl2 IH Hx]; intros l1 Hsub.
  - apply sublist_nil_r in Hsub as ->. constructor.
  - apply sublist_cons_r in Hsub as [Hsub|(l1' & -> & Hsub)]; [by apply IH |].
    constructor; [by apply IH |].
    rewrite Forall_forall in Hx |- *. intros y Hy. apply Hx.
    by eapply elem_of_sublist.
Qed.

End order_facts.

(** ** The insertion sort keeps the contract of [sort.Sort] *)

Section insertion_sort_facts.
Import Reference.
Context {A : Type} (less : A → A → bool).

Lemma insertBack_perm x revPrefix :
  insertBack less x revPrefix ≡ₚ x :: revPrefix.
Proof.
  induction revPrefix as [|y rest IH]; simpl; [done |].
  destruct (less x y); [|done].
  rewrite IH. apply Permutation_swap.
Qed.

Lemma insertion_fold_perm l revPrefix :
  fold_left (λ acc x, insertBack less x acc) l revPrefix ≡ₚ l ++ revPrefix.
Proof.
  revert revPrefix. induction l as [|x l IH]; intros revPrefix; simpl; [done |].
  rewrite IH, insertBack_perm. by rewrite Permutation_middle.
Qed.

Lemma insertionSort_perm l : insertionSort A less l ≡ₚ l.
Proof.
  unfold insertionSort. rewrite <- Permutation_rev.
  rewrite insertion_fold_perm. by rewrite app_nil_r.
Qed.

Context `{!StrictWeakOrder less}.

(** The reversed prefix is in descending order. *)
Lemma insertBack_descending x revPrefix :
  StronglySorted (λ a b, less a b = false) revPrefix →
  StronglySorted (λ a b, less a b = false) (insertBack less x revPrefix).
Proof.
  induction 1 as [|y rest Hrest IH Hy]; simpl.
  - repeat constructor.
  - destruct (less x y) eqn:Hxy.
    + constructor; [done |].
      rewrite insertBack_perm. constructor; [|done].
      by apply less_asym.
    + constructor; [by constructor |].
      constructor; [done |].
      eapply Forall_impl; [done |]. simpl. intros b Hb.
      by eapply less_negtrans.
Qed.

Lemma insertion_fold_descending l revPrefix :
  StronglySorted (λ a b, less a b = false) revPrefix →
  StronglySorted (λ a b, less a b = false)
    (fold_left (λ acc x, insertBack less x acc) l revPrefix).
Proof.
  revert revPrefix. induction l as [|x l IH]; intros revPrefix Hs; simpl; [done |].
  by apply IH, insertBack_descending.
Qed.

Lemma descending_rev (l : list A) :
  StronglySorted (λ a b, less a b = false) l → ascending less (rev l).
Proof.
  unfold ascending. induction 1 as [|x l Hl IH Hx]; simpl; [constructor |].
  apply StronglySorted_app_2; [| done | repeat constructor].
  intros a b Ha Hb. apply list_elem_of_singleton in Hb as ->.
  rewrite Forall_forall in Hx. apply Hx.
  by apply list_elem_of_In, in_rev, list_elem_of_In.
Qed.

Lemma insertionSort_ascending l : ascending less (insertionSort A less l).
Proof.
  unfold insertionSort. apply descending_rev, insertion_fold_descending.
  constructor.
Qed.

End insertion_sort_facts.

(** The stand-in collaborators keep the contract of [sort.Sort]. *)
Lemma reference_sort_contract format :
  @SortContract (Reference.externals format).
Proof.
  split; simpl.
  - intros A less l. apply insertionSort_perm.
  - intros A less l Hless. by apply insertionSort_ascending.
Qed.

(** ** The first element for each key *)

Section firstByKey_facts.
Context {A : Type} (key : A → string).

Lemma firstByKey_from_sublist seen l :
  sublist (firstByKey_from key seen l) l.
Proof.
  revert seen. induction l as [|x l IH]; intros seen; simpl; [done |].
  case_decide.
  - by apply sublist_cons.
  - by apply sublist_skip.
Qed.

Lemma firstByKey_from_not_seen seen l x :
  x ∈ firstByKey_from key seen l → key x ∉ seen.
Proof.
  revert seen. induction l as [|y l IH]; intros seen; simpl.
  - by intros ?%elem_of_nil.
  - case_decide as Hy; [by apply IH |].
    intros [->|Hx]%elem_of_cons; [done |].
    apply IH in Hx. intros Hin. apply Hx. by apply elem_of_cons; right.
Qed.

Lemma firstByKey_from_NoDup seen l :
  NoDup (map key (firstByKey_from key seen l)).
Proof.
  revert seen. induction l as [|x l IH]; intros seen; simpl.
  - constructor.
  - case_decide as Hx; [apply IH |]. simpl. constructor; [|apply IH].
    intros (y & Hkey & Hy)%list_elem_of_fmap.
    apply firstByKey_from_not_seen in Hy. apply Hy.
    rewrite <- Hkey. by apply elem_of_cons; left.
Qed.

Lemma firstByKey_from_ext seen seen' l :
  (∀ k, k ∈ seen ↔ k ∈ seen') →
  firstByKey_from key seen l = firstByKey_from key seen' l.
Proof.
  revert seen seen'. induction l as [|x l IH]; intros seen seen' Hs; simpl.
  - done.
  - destruct (decide (key x ∈ seen)) as [Hx|Hx].
    + rewrite decide_True by (by apply Hs). by apply IH.
    + rewrite decide_False by (by rewrite <- Hs). f_equal. apply IH.
      intros k. rewrite !elem_of_cons. by rewrite Hs.
Qed.

Lemma firstByKey_from_app seen l1 l2 :
  firstByKey_from key seen (l1 ++ l2) =
  firstByKey_from key seen l1 ++ firstByKey_from key (map key l1 ++ seen) l2.
Proof.
  revert seen. induction l1 as [|x l1 IH]; intros seen; simpl; [done |].
  case_decide as Hx.
  - rewrite IH. f_equal. apply firstByKey_from_ext.
    intros k. rewrite !elem_of_cons, !elem_of_app. naive_solver.
  - simpl. rewrite IH. do 2 f_equal. apply firstByKey_from_ext.
    intros k. rewrite !elem_of_cons, !elem_of_app, !elem_of_cons. naive_solver.
Qed.

Lemma firstByKey_from_keys seen l k :
  k ∈ map key (firstByKey_from key seen l) ↔ k ∈ map key l ∧ k ∉ seen.
Proof.
  revert seen. induction l as [|x l IH]; intros seen; simpl.
  - rewrite elem_of_nil. naive_solver.
  - case_decide as Hx; simpl.
    + rewrite IH, elem_of_cons. naive_solver.
    + rewrite !elem_of_cons, IH, elem_of_cons.
      destruct (decide (k = key x)); naive_solver.
Qed.

Lemma firstByKey_sublist l : sublist (firstByKey key l) l.
Proof. apply firstByKey_from_sublist. Qed.

Lemma firstByKey_NoDup l : NoDup (map key (firstByKey key l)).
Proof. apply firstByKey_from_NoDup. Qed.

Lemma firstByKey_keys l k :
  k ∈ map key (firstByKey key l) ↔ k ∈ map key l.
Proof.
  unfold firstByKey. rewrite firstByKey_from_keys, elem_of_nil. naive_solver.
Qed.

Lemma firstByKey_snoc l x :
  firstByKey key (l ++ [x]) =
  firstByKey key l ++ (if decide (key x ∈ map key l) then [] else [x]).
Proof.
  unfold firstByKey. rewrite firstByKey_from_app. f_equal. simpl.
  rewrite app_nil_r. by case_decide.
Qed.

(** An element is kept exactly when it stands at a position before which
    its key does not occur. *)
Lemma firstByKey_first l x :
  x ∈ firstByKey key l ↔ ∃ l1 l2, l = l1 ++ x :: l2 ∧ key x ∉ map key l1.
Proof.
  split.
  - unfold firstByKey. generalize (@nil string) as seen.
    induction l as [|y l IH]; intros seen; simpl.
    + by intros ?%elem_of_nil.
    + case_decide as Hy.
      * intros Hx. pose proof (firstByKey_from_not_seen _ _ _ Hx) as Hseen.
        destruct (IH _ Hx) as (l1 & l2 & -> & Hl1).
        exists (y :: l1), l2. split; [done |]. simpl.
        apply not_elem_of_cons. split; [congruence | done].
      * intros [->|Hx]%elem_of_cons.
        { exists [], l. split; [done |]. apply not_elem_of_nil. }
        pose proof (firstByKey_from_not_seen _ _ _ Hx) as Hseen.
        destruct (IH _ Hx) as (l1 & l2 & -> & Hl1).
        exists (y :: l1), l2. split; [done |]. simpl.
        apply not_elem_of_cons. split; [|done].
        intros Heq. apply Hseen. rewrite Heq. by apply elem_of_cons; left.
  - intros (l1 & l2 & -> & Hl1). unfold firstByKey.
    rewrite firstByKey_from_app, elem_of_app. right. simpl.
    rewrite app_nil_r, decide_False by done. by apply elem_of_cons; left.
Qed.

(** With the keys in ascending order on input, the kept elements have
    strictly increasing keys. *)
Lemma firstByKey_strictly_ascending l :
  ascending (λ a b, String.ltb (key a) (key b)) l →
  StronglySorted (λ a b, String.ltb (key a) (key b) = true) (firstByKey key l).
Proof.
  intros Hl. apply ascending_NoDup_strict; [|apply firstByKey_NoDup].
  eapply ascending_sublist; [apply firstByKey_sublist | done].
Qed.

End firstByKey_facts.

(** ** The loop that removes duplicate fields *)

Section removeDuplicateFields_facts.

Lemma removeDuplicateFields_loop_spec fields :
  ∀ i uniqueFields (fieldMap : gmap string nat) seen,
    (∀ k, is_Some (fieldMap !! k) ↔ k ∈ seen) →
    removeDuplicateFields_loop i fields uniqueFields fieldMap =
    uniqueFields ++ firstByKey_from field_Name seen fields.
Proof.
  induction fields as [|field rest IH]; intros i U M seen HM; simpl.
  - by rewrite app_nil_r.
  - destruct (M !! field_Name field) as [j|] eqn:Hlook.
    + rewrite decide_True by (apply HM; by rewrite Hlook). by apply IH.
    + rewrite decide_False by (rewrite <- HM, Hlook; by intros [? ?]).
      rewrite (IH _ _ _ (field_Name field :: seen)).
      * by rewrite <- app_assoc.
      * intros k. rewrite elem_of_cons, <- HM.
        destruct (decide (k = field_Name field)) as [->|Hne].
        -- rewrite lookup_insert_eq. naive_solver.
        -- rewrite lookup_insert_ne by done. naive_solver.
Qed.

(** The loop keeps the first field of each name. *)
Lemma removeDuplicateFields_spec fields :
  removeDuplicateFields fields = firstByKey field_Name fields.
Proof.
  unfold removeDuplicateFields, firstByKey.
  rewrite (removeDuplicateFields_loop_spec fields 0 [] ∅ []); [done |].
  intros k. rewrite lookup_empty, elem_of_nil. split; [by intros [? ?] | done].
Qed.

End removeDuplicateFields_facts.

(** ** The loop that merges duplicate enums *)

Section mergeDuplicateEnums_facts.

Lemma valuesNamed_snoc l x name :
  valuesNamed (l ++ [x]) name =
  valuesNamed l name ++ (if decide (enum_Name x = name) then enum_Values x else []).
Proof.
  unfold valuesNamed. rewrite filter_app, map_app, concat_app. f_equal.
  rewrite filter_cons, filter_nil. case_decide; simpl; [|done].
  by rewrite app_nil_r.
Qed.

Lemma valuesNamed_absent l name :
  name ∉ map enum_Name l → valuesNamed l name = [].
Proof.
  intros Hname. unfold valuesNamed.
  induction l as [|y l IH]; [done |].
  simpl in Hname. apply not_elem_of_cons in Hname as [Hy Hl].
  rewrite filter_cons, decide_False by congruence. by apply IH.
Qed.

Lemma gather_snoc_ne l x e :
  enum_Name x ≠ enum_Name e → gather (l ++ [x]) e = gather l e.
Proof.
  intros Hne. unfold gather. rewrite valuesNamed_snoc.
  by rewrite decide_False, app_nil_r.
Qed.

Lemma gather_snoc_eq l x e :
  enum_Name x = enum_Name e →
  gather (l ++ [x]) e = append_Values (enum_Values x) (gather l e).
Proof.
  intros Heq. unfold gather, append_Values. simpl.
  by rewrite valuesNamed_snoc, decide_True.
Qed.

Lemma gather_snoc_new l x :
  enum_Name x ∉ map enum_Name l → gather (l ++ [x]) x = x.
Proof.
  intros Hnew. unfold gather. rewrite valuesNamed_snoc.
  rewrite valuesNamed_absent by done. rewrite decide_True by done.
  by destruct x.
Qed.

Lemma merge_invariant_new seen U M enum :
  merge_invariant seen U M →
  M !! enum_Name enum = None →
  merge_invariant (seen ++ [enum]) (U ++ [enum])
    (<[enum_Name enum := length (U ++ [enum]) - 1]> M).
Proof.
  intros [-> HM] Hnone.
  assert (enum_Name enum ∉ map enum_Name seen) as Hnew.
  { rewrite <- firstByKey_keys. intros (i & Hi)%list_elem_of_lookup.
    apply HM in Hi. congruence. }
  assert (length (mergedEnums seen ++ [enum]) - 1 =
          length (map enum_Name (firstByKey enum_Name seen))) as ->.
  { unfold mergedEnums. rewrite length_app, !length_map. simpl. lia. }
  split.
  - unfold mergedEnums. rewrite firstByKey_snoc, decide_False by done.
    rewrite map_app. simpl. rewrite gather_snoc_new by done. f_equal.
    apply map_ext_in. intros e He%list_elem_of_In.
    symmetry. apply gather_snoc_ne.
    intros Heq. apply Hnew. rewrite Heq, <- firstByKey_keys.
    apply list_elem_of_fmap. by exists e.
  - intros name i. rewrite firstByKey_snoc, decide_False by done.
    rewrite map_app. simpl.
    destruct (decide (name = enum_Name enum)) as [->|Hne].
    + rewrite lookup_insert_eq. split.
      * intros [= <-]. by rewrite list_lookup_middle.
      * intros Hi. f_equal.
        destruct (decide (i < length (map enum_Name (firstByKey enum_Name seen))))
          as [Hlt|Hge].
        -- rewrite lookup_app_l in Hi by done. apply HM in Hi. congruence.
        -- apply lookup_lt_Some in Hi. rewrite length_app in Hi. simpl in Hi. lia.
    + rewrite lookup_insert_ne by done. rewrite HM. split.
      * intros Hi. rewrite lookup_app_l; [done |]. by eapply lookup_lt_Some.
      * intros Hi.
        destruct (decide (i < length (map enum_Name (firstByKey enum_Name seen))))
          as [Hlt|Hge].
        -- by rewrite lookup_app_l in Hi.
        -- rewrite lookup_app_r in Hi by lia.
           apply list_lookup_singleton_Some in Hi as [_ Hi]. congruence.
Qed.

Lemma merge_invariant_previous seen U M enum previous :
  merge_invariant seen U M →
  M !! enum_Name enum = Some previous →
  ∃ e, U !! previous = Some e ∧
       merge_invariant (seen ++ [enum])
         (<[previous := append_Values (enum_Values enum) e]> U) M.
Proof.
  intros [-> HM] Hprev. unfold mergedEnums.
  pose proof Hprev as Hidx. apply HM in Hidx.
  rewrite list_lookup_fmap in Hidx.
  destruct (firstByKey enum_Name seen !! previous) as [e0|] eqn:He0; [|done].
  simpl in Hidx. injection Hidx as Hname.
  exists (gather seen e0). split.
  { by rewrite list_lookup_fmap, He0. }
  assert (enum_Name enum ∈ map enum_Name seen) as Hold.
  { rewrite <- firstByKey_keys, <- Hname.
    apply list_elem_of_fmap. exists e0. split; [done |].
    by eapply list_elem_of_lookup_2. }
  split.
  - unfold mergedEnums. rewrite firstByKey_snoc, decide_True, app_nil_r by done.
    apply list_eq. intros j. rewrite !list_lookup_fmap.
    destruct (decide (j = previous)) as [->|Hj].
    + rewrite list_lookup_insert_eq.
      2:{ rewrite length_map. by eapply lookup_lt_Some. }
      rewrite He0. simpl. by rewrite gather_snoc_eq.
    + rewrite list_lookup_insert_ne by done. rewrite list_lookup_fmap.
      destruct (firstByKey enum_Name seen !! j) as [e|] eqn:He; [|done].
      simpl. f_equal. symmetry. apply gather_snoc_ne. intros Heq. apply Hj.
      eapply (NoDup_lookup (map enum_Name (firstByKey enum_Name seen)));
        [apply firstByKey_NoDup | |].
      * rewrite list_lookup_fmap, He. simpl. reflexivity.
      * rewrite list_lookup_fmap, He0. simpl. congruence.
  - intros name i. rewrite firstByKey_snoc, decide_True, app_nil_r by done.
    apply HM.
Qed.

Lemma mergeDuplicateEnums_loop_spec enums :
  ∀ seen uniqueEnums enumMap,
    merge_invariant seen uniqueEnums enumMap →
    mergeDuplicateEnums_loop enums uniqueEnums enumMap =
    Some (mergedEnums (seen ++ enums)).
Proof.
  induction enums as [|enum rest IH]; intros seen U M Hinv; simpl.
  - rewrite app_nil_r. by destruct Hinv as [-> _].
  - destruct (M !! enum_Name enum) as [previous|] eqn:Hlook.
    + destruct (merge_invariant_previous _ _ _ _ _ Hinv Hlook)
        as (e & -> & Hinv').
      rewrite (IH _ _ _ Hinv'). by rewrite <- app_assoc.
    + rewrite (IH _ _ _ (merge_invariant_new _ _ _ _ Hinv Hlook)).
      by rewrite <- app_assoc.
Qed.

(** The loop never indexes outside [uniqueEnums], and returns one enum
    per name holding the concatenation of the contributed value lists. *)
Lemma mergeDuplicateEnums_spec enums :
  mergeDuplicateEnums enums = Some (mergedEnums enums).
Proof.
  unfold mergeDuplicateEnums.
  rewrite (mergeDuplicateEnums_loop_spec enums [] [] ∅); [done |].
  split; [done |]. intros name i. by rewrite lookup_empty.
Qed.

Lemma mergedEnums_names l :
  map enum_Name (mergedEnums l) = map enum_Name (firstByKey enum_Name l).
Proof. unfold mergedEnums. rewrite map_map. by apply map_ext. Qed.

Lemma mergedEnums_NoDup l : NoDup (map enum_Name (mergedEnums l)).
Proof. rewrite mergedEnums_names. apply firstByKey_NoDup. Qed.

Lemma mergedEnums_values l e :
  e ∈ mergedEnums l → enum_Values e = valuesNamed l (enum_Name e).
Proof.
  unfold mergedEnums. intros (e0 & -> & _)%list_elem_of_fmap. reflexivity.
Qed.

Lemma mergedEnums_covers l x :
  x ∈ l → ∃ e, e ∈ mergedEnums l ∧ enum_Name e = enum_Name x.
Proof.
  intros Hx.
  assert (enum_Name x ∈ map enum_Name (mergedEnums l)) as Hin.
  { rewrite mergedEnums_names, firstByKey_keys.
    apply list_elem_of_fmap. by exists x. }
  apply list_elem_of_fmap in Hin as (e & Heq & He). by exists e.
Qed.

Lemma elem_of_valuesNamed l name v :
  v ∈ valuesNamed l name ↔ ∃ x, x ∈ l ∧ enum_Name x = name ∧ v ∈ enum_Values x.
Proof.
  unfold valuesNamed. rewrite list_elem_of_In, in_concat. split.
  - intros (vs & Hvs & Hv). apply in_map_iff in Hvs as (x & <- & Hx).
    apply list_elem_of_In, list_elem_of_filter in Hx as [Hname Hx].
    exists x. split_and!; [done | done | by apply list_elem_of_In].
  - intros (x & Hx & Hname & Hv). exists (enum_Values x). split.
    + apply in_map. by apply list_elem_of_In, list_elem_of_filter.
    + by apply list_elem_of_In.
Qed.

Lemma valuesNamed_Permutation l1 l2 name :
  l1 ≡ₚ l2 → valuesNamed l1 name ≡ₚ valuesNamed l2 name.
Proof.
  intros Hp. unfold valuesNamed.
  induction Hp as [|x l1 l2 Hp IH|x y l|l1 l2 l3 Hp1 IH1 Hp2 IH2].
  - done.
  - rewrite !filter_cons. case_decide; simpl; by rewrite IH.
  - rewrite !filter_cons. repeat case_decide; simpl; try done.
    rewrite !app_assoc. f_equiv. apply Permutation_app_comm.
  - by etrans.
Qed.

End mergeDuplicateEnums_facts.

(** ** The layout type graph *)

Section layout_facts.
Context `{Externals}.

Lemma assembleLayout_spec traceFile :
  assembleLayout traceFile =
  inr {| MainType :=
           set_Fields (MainType traceFile)
             (firstByKey field_Name
                (sortSort _ Less_structFields
                   (sstruct_Fields (MainType traceFile))) ++ axisFields);
         Objects := Objects traceFile;
         Enums := mergedEnums (sortSort _ Less_enumFiles (Enums traceFile));
         FlagLists := FlagLists traceFile |}.
Proof.
  unfold assembleLayout. cbv zeta.
  by rewrite mergeDuplicateEnums_spec, removeDuplicateFields_spec.
Qed.

Lemma axisFields_signatures :
  map signature axisFields =
  [ ("XAxis2", "xaxis2", "LayoutXaxis"); ("XAxis3", "xaxis3", "LayoutXaxis");
    ("XAxis4", "xaxis4", "LayoutXaxis"); ("XAxis5", "xaxis5", "LayoutXaxis");
    ("XAxis6", "xaxis6", "LayoutXaxis"); ("YAxis2", "yaxis2", "LayoutYaxis");
    ("YAxis3", "yaxis3", "LayoutYaxis"); ("YAxis4", "yaxis4", "LayoutYaxis");
    ("YAxis5", "yaxis5", "LayoutYaxis"); ("YAxis6", "yaxis6", "LayoutYaxis") ].
Proof. reflexivity. Qed.

Lemma axisFields_NoDup : NoDup (map field_Name axisFields).
Proof. by_evaluation. Qed.

Context `{!SortContract}.

Lemma sorted_fields_names (fields : list structField) name :
  name ∈ map field_Name
           (firstByKey field_Name (sortSort _ Less_structFields fields)) ↔
  name ∈ map field_Name fields.
Proof.
  rewrite firstByKey_keys. by rewrite (sortSort_perm _ Less_structFields fields).
Qed.

End layout_facts.

(** C10. In WriteLayout the axis fix-up comes after the removal of
    duplicate fields and appends, whatever the schema, the ten fields
    XAxis2..XAxis6 of type LayoutXaxis and YAxis2..YAxis6 of type
    LayoutYaxis, without looking at the names already present.  It changes
    the field list of the main type only: the name and description of the
    main type, the objects, the enums, the flag lists and the fields
    computed before are as they were.  The fields before the fix-up have
    distinct names, so the names of the Layout type are distinct exactly
    when the schema contributes no field named like one of the ten. *)
Theorem C10_axis_fixup_frame `{Externals} `{!SortContract}
    (r : Renderer) (order : list (string * Trace)) (parsed : typeFile) :
  layoutParsed r order = inr parsed →
  ∃ uniqueFields uniqueEnums,
    let before := set_Enums (set_MainFields parsed uniqueFields) uniqueEnums in
    let after := addAxisFields before in
    uniqueFields =
      removeDuplicateFields
        (sortSort _ Less_structFields (sstruct_Fields (MainType parsed)))
    ∧ mergeDuplicateEnums (sortSort _ Less_enumFiles (Enums parsed))
      = Some uniqueEnums
    ∧ layoutTypeFile r order = inr after
    ∧ sstruct_Fields (MainType after) = uniqueFields ++ axisFields
    ∧ map (λ f, (field_Name f, field_Type f)) axisFields =
        [ ("XAxis2", "LayoutXaxis"); ("XAxis3", "LayoutXaxis");
          ("XAxis4", "LayoutXaxis"); ("XAxis5", "LayoutXaxis");
          ("XAxis6", "LayoutXaxis"); ("YAxis2", "LayoutYaxis");
          ("YAxis3", "LayoutYaxis"); ("YAxis4", "LayoutYaxis");
          ("YAxis5", "LayoutYaxis"); ("YAxis6", "LayoutYaxis") ]
    ∧ sstruct_Name (MainType after) = sstruct_Name (MainType before)
    ∧ sstruct_Description (MainType after) = sstruct_Description (MainType before)
    ∧ Objects after = Objects before
    ∧ Enums after = Enums before
    ∧ FlagLists after = FlagLists before
    ∧ NoDup (map field_Name uniqueFields)
    ∧ (NoDup (map field_Name (sstruct_Fields (MainType after))) ↔
       ∀ f, f ∈ sstruct_Fields (MainType parsed) →
            field_Name f ∉ map field_Name axisFields).
Proof.
  intros Hparsed.
  exists (removeDuplicateFields
            (sortSort _ Less_structFields (sstruct_Fields (MainType parsed)))),
         (mergedEnums (sortSort _ Less_enumFiles (Enums parsed))).
  cbn zeta. split_and!; try reflexivity.
  - apply mergeDuplicateEnums_spec.
  - unfold layoutTypeFile. rewrite Hparsed, assembleLayout_spec.
    by rewrite removeDuplicateFields_spec.
  - rewrite removeDuplicateFields_spec. apply firstByKey_NoDup.
  - change (sstruct_Fields (MainType (addAxisFields ?t)))
      with (sstruct_Fields (MainType t) ++ axisFields).
    change (sstruct_Fields (MainType (set_Enums (set_MainFields ?t ?fs) ?es)))
      with fs.
    rewrite removeDuplicateFields_spec, map_app, NoDup_app. split.
    + intros (_ & Hdisjoint & _) f Hf. apply Hdisjoint.
      apply sorted_fields_names, list_elem_of_fmap. by exists f.
    + intros Hfresh. split_and!.
      * apply firstByKey_NoDup.
      * intros name Hname.
        apply (proj1 (sorted_fields_names _ _)) in Hname.
        apply list_elem_of_fmap in Hname as (f & -> & Hf). by apply Hfresh.
      * apply axisFields_NoDup.
Qed.

Lemma C10_axis_fixup_frame_witness :
  let E := Reference.externals Reference.acceptAll in
  ∃ parsed after,
    @layoutParsed E Examples.axesRenderer [] = inr parsed ∧
    @layoutTypeFile E Examples.axesRenderer [] = inr after ∧
    NoDup (map field_Name (sstruct_Fields (MainType after))).
Proof.
  intros E.
  destruct (@C10_axis_fixup_frame E (reference_sort_contract _)
              Examples.axesRenderer [] _ eq_refl)
    as (uniqueFields & uniqueEnums & _ & _ & Hafter & _ & _ & _ & _ & _ & _ & _
        & _ & Hunique).
  eexists _, _. split_and!; [reflexivity | exact Hafter |].
  apply Hunique. intros f Hf. by_evaluation_in Hf.
Defined.

(** ** First occurrences and stable orders *)

Section first_occurrence_facts.
Context {A : Type} (key : A → string).

(** Being the first element with one's key is read off the elements of
    that key alone. *)
Lemma first_occurrence_head (l : list A) (x : A) :
  (∃ l1 l2, l = l1 ++ x :: l2 ∧ key x ∉ map key l1) ↔
  head (filter (λ y, key y = key x) l) = Some x.
Proof.
  split.
  - intros (l1 & l2 & -> & Hl1). rewrite filter_app.
    assert (filter (λ y, key y = key x) l1 = []) as ->.
    { induction l1 as [|y l1 IH]; [done |]. simpl in Hl1.
      apply not_elem_of_cons in Hl1 as [Hy Hl1].
      rewrite filter_cons, decide_False by congruence. by apply IH. }
    by rewrite filter_cons, decide_True.
  - induction l as [|y l IH]; [done |].
    rewrite filter_cons. case_decide as Hy; simpl.
    + intros [= ->]. exists [], l. split; [done | apply not_elem_of_nil].
    + intros (l1 & l2 & -> & Hl1)%IH. exists (y :: l1), l2.
      split; [done |]. simpl. apply not_elem_of_cons. split; [congruence | done].
Qed.

(** Two strictly ascending lists of strings with the same elements are
    equal. *)
Lemma strictly_ascending_unique (l1 l2 : list string) :
  StronglySorted (λ a b, String.ltb a b = true) l1 →
  StronglySorted (λ a b, String.ltb a b = true) l2 →
  NoDup l1 → NoDup l2 → (∀ k, k ∈ l1 ↔ k ∈ l2) → l1 = l2.
Proof.
  intros H1 H2 Hn1 Hn2 Hsame.
  eapply (StronglySorted_unique_strong (λ a b, String.ltb a b = true));
    [| done | done | by apply NoDup_Permutation].
  intros a b _ _ Hab Hba. apply ltb_asym in Hab. congruence.
Qed.

Lemma strictly_ascending_keys (l : list A) :
  StronglySorted (λ a b, String.ltb (key a) (key b) = true) l →
  StronglySorted (λ a b, String.ltb a b = true) (map key l).
Proof.
  induction 1 as [|x l Hl IH Hx]; simpl; constructor; [done |].
  by apply Forall_fmap.
Qed.

End first_occurrence_facts.

(** ** The duplicate policies of WriteLayout *)

(** C2, counterexample: the layout and the trace "a" both contribute a
    field of the identifier XAxis2.  The field of the layout, contributed
    first, is kept and that of the trace is dropped, but the axis fix-up
    then appends its own field XAxis2: two fields of that name are left in
    the layout main type. *)
Lemma C2_counterexample_two_contributors :
  let E := Reference.externals Reference.acceptAll in
  let order := [("a", MoreExamples.axisTrace)] in
  range_order (Traces (root_Schema (root MoreExamples.axisRenderer))) order
  ∧ ∃ parsed after,
      @layoutParsed E MoreExamples.axisRenderer order = inr parsed
      ∧ map signature (sstruct_Fields (MainType parsed))
        = [("XAxis2", "x_axis2", "interface{}"); ("XAxis2", "x_axis2", "float64")]
      ∧ @layoutTypeFile E MoreExamples.axisRenderer order = inr after
      ∧ map signature
          (filter (λ f, field_Name f = "XAxis2") (sstruct_Fields (MainType after)))
        = [("XAxis2", "x_axis2", "interface{}"); ("XAxis2", "xaxis2", "LayoutXaxis")]
      ∧ ¬ NoDup (map field_Name (sstruct_Fields (MainType after))).
Proof.
  intros E order. split.
  { unfold range_order.
    assert (map_to_list (Traces (root_Schema (root MoreExamples.axisRenderer)))
            = order) as -> by reflexivity.
    reflexivity. }
  eexists _, _. split_and!; [reflexivity | reflexivity | reflexivity | reflexivity |].
  by_evaluation.
Qed.

(** C2, amended.  Of the fields contributed to the layout target under one
    name, the duplicate removal keeps exactly one: the first of that name
    in the order left by the sort of the fields, whole, with its Type,
    JSONName and Description; the others are dropped.  When the sort has
    kept the fields of each name in their order of contribution, the field
    kept is that of the earliest contributor.  The fields kept are
    followed in the main type by the ten fields of the axis fix-up, so
    that each name occurs once in the layout main type when the schema
    contributes no field named like one of the ten. *)
Theorem C2_first_field_of_each_name_is_kept `{Externals} `{!SortContract}
    (r : Renderer) (order : list (string * Trace)) (parsed : typeFile) :
  layoutParsed r order = inr parsed →
  let contributed := sstruct_Fields (MainType parsed) in
  let sorted := sortSort _ Less_structFields contributed in
  let kept := removeDuplicateFields sorted in
  ∃ after,
    layoutTypeFile r order = inr after
    ∧ sstruct_Fields (MainType after) = kept ++ axisFields
    ∧ NoDup (map field_Name kept)
    ∧ (∀ f, f ∈ contributed → ∃ f', f' ∈ kept ∧ field_Name f' = field_Name f)
    ∧ (∀ f', f' ∈ kept →
         f' ∈ contributed ∧
         ∃ l1 l2, sorted = l1 ++ f' :: l2 ∧ field_Name f' ∉ map field_Name l1)
    ∧ (Forall (λ f, filter (λ g, field_Name g = field_Name f) sorted =
                    filter (λ g, field_Name g = field_Name f) contributed)
         contributed →
       ∀ f', f' ∈ kept →
         ∃ l1 l2, contributed = l1 ++ f' :: l2 ∧
                  field_Name f' ∉ map field_Name l1)
    ∧ ((∀ f, f ∈ contributed → field_Name f ∉ map field_Name axisFields) →
       NoDup (map field_Name (sstruct_Fields (MainType after)))).
Proof.
  intros Hparsed contributed sorted kept.
  assert (kept = firstByKey field_Name sorted) as Hkept
    by apply removeDuplicateFields_spec.
  assert (∀ f', f' ∈ kept → f' ∈ contributed) as Hsub.
  { intros f' Hf'. rewrite Hkept in Hf'.
    eapply elem_of_sublist in Hf'; [|apply firstByKey_sublist].
    unfold sorted in Hf'. by rewrite sortSort_perm in Hf'. }
  exists {| MainType := set_Fields (MainType parsed) (kept ++ axisFields);
            Objects := Objects parsed;
            Enums := mergedEnums (sortSort _ Less_enumFiles (Enums parsed));
            FlagLists := FlagLists parsed |}.
  split_and!.
  - unfold layoutTypeFile. by rewrite Hparsed, assembleLayout_spec, Hkept.
  - reflexivity.
  - rewrite Hkept. apply firstByKey_NoDup.
  - intros f Hf.
    assert (field_Name f ∈ map field_Name kept) as Hin.
    { rewrite Hkept. apply sorted_fields_names, list_elem_of_fmap. by exists f. }
    apply list_elem_of_fmap in Hin as (f' & Heq & Hf'). by exists f'.
  - intros f' Hf'. split; [by apply Hsub |].
    rewrite Hkept in Hf'. by apply firstByKey_first in Hf'.
  - intros Hstable f' Hf'. apply first_occurrence_head.
    rewrite Forall_forall in Hstable. rewrite <- (Hstable f' (Hsub f' Hf')).
    apply first_occurrence_head. rewrite Hkept in Hf'.
    by apply firstByKey_first in Hf'.
  - intros Hfresh.
    change (NoDup (map field_Name (kept ++ axisFields))).
    rewrite map_app, NoDup_app. split_and!.
    + rewrite Hkept. apply firstByKey_NoDup.
    + intros name (f' & -> & Hf')%list_elem_of_fmap. by apply Hfresh, Hsub.
    + apply axisFields_NoDup.
Qed.

Lemma C2_first_field_of_each_name_is_kept_witness :
  let E := Reference.externals Reference.acceptAll in
  let order := [("a", MoreExamples.widthTrace)] in
  ∃ parsed after,
    @layoutParsed E MoreExamples.widthRenderer order = inr parsed
    ∧ map signature (sstruct_Fields (MainType parsed))
      = [("Width", "width", "float64"); ("Width", "width", "int64")]
    ∧ @layoutTypeFile E MoreExamples.widthRenderer order = inr after
    ∧ map signature
        (removeDuplicateFields
           (@sortSort E _ Less_structFields (sstruct_Fields (MainType parsed))))
      = [("Width", "width", "float64")]
    ∧ NoDup (map field_Name
               (removeDuplicateFields
                  (@sortSort E _ Less_structFields
                     (sstruct_Fields (MainType parsed)))))
    ∧ ∀ f',
        f' ∈ removeDuplicateFields
               (@sortSort E _ Less_structFields
                  (sstruct_Fields (MainType parsed))) →
        ∃ l1 l2,
          sstruct_Fields (MainType parsed) = l1 ++ f' :: l2
          ∧ field_Name f' ∉ map field_Name l1.
Proof.
  intros E order.
  destruct (@C2_first_field_of_each_name_is_kept E (reference_sort_contract _)
              MoreExamples.widthRenderer order _ eq_refl)
    as (after & Hafter & _ & Hunique & _ & _ & Hearliest & _).
  eexists _, after.
  split_and!; [reflexivity | reflexivity | exact Hafter | reflexivity
              | exact Hunique |].
  apply Hearliest. by_evaluation.
Defined.

(** [sort.Sort] does not promise to keep elements that compare equal in
    their order: a sort that keeps the contract and visits the slice from
    its end makes the duplicate removal keep the later of two fields of one
    name. *)
Remark later_field_kept_by_unstable_sort :
  let E :=
    {| ToCamelCase := Reference.camelCase;
       parseAttributes := Reference.parseAttributes_spec;
       sortSort := λ A less l, Reference.insertionSort A less (rev l);
       trace_tmpl := Reference.render_struct;
       enum_tmpl := Reference.render_enum;
       flaglist_tmpl := Reference.render_flaglist;
       unmarshal_tmpl := Reference.render_unmarshal;
       formatSource := Reference.acceptAll;
       pathJoin := λ dir name, dir +:+ "/" +:+ name |} in
  let first := Reference.attributeField "width" "float64" in
  let second := Reference.attributeField "width" "int64" in
  @SortContract E ∧
  removeDuplicateFields (@sortSort E _ Less_structFields [first; second])
  = [second].
Proof.
  split; [|reflexivity]. split; simpl.
  - intros A less l. by rewrite insertionSort_perm, <- Permutation_rev.
  - intros A less l Hless. by apply insertionSort_ascending.
Qed.

(** C1, counterexample: the enum contributed with the values
    circle, square and again with the values square, triangle is merged,
    in either order, into one enum of four variants in which square occurs
    twice. *)
Lemma C1_counterexample_square_twice :
  let E := Reference.externals Reference.acceptAll in
  mergeDuplicateEnums
    (@sortSort E _ Less_enumFiles [Examples.circleSquare; Examples.squareTriangle])
  = Some [ {| enum_Name := "ShapeType";
              enum_Values :=
                enum_Values Examples.circleSquare ++
                enum_Values Examples.squareTriangle |} ]
  ∧ mergeDuplicateEnums
      (@sortSort E _ Less_enumFiles [Examples.squareTriangle; Examples.circleSquare])
    = Some [ {| enum_Name := "ShapeType";
                enum_Values :=
                  enum_Values Examples.squareTriangle ++
                  enum_Values Examples.circleSquare |} ]
  ∧ map value_Value
      (enum_Values Examples.circleSquare ++ enum_Values Examples.squareTriangle)
    = ["circle"; "square"; "square"; "triangle"]
  ∧ ¬ NoDup ["circle"; "square"; "square"; "triangle"]
  ∧ length (enum_Values Examples.circleSquare ++
            enum_Values Examples.squareTriangle) ≠ 3.
Proof.
  intros E. split_and!; [reflexivity | reflexivity | reflexivity | | by_evaluation].
  intros Hnd. apply NoDup_cons in Hnd as [_ Hnd].
  apply NoDup_cons in Hnd as [Hnotin _]. apply Hnotin.
  apply elem_of_cons; by left.
Qed.

(** C1, amended.  WriteLayout leaves one enum for each Name contributed to
    the layout target.  Its value list is the concatenation, in the order
    left by the sort of the enums, of the value lists contributed under
    that Name: as a set it is the union of the contributed lists, and a
    value contributed several times occurs that many times.  Processing the
    contributors in another order gives the same enum names in the same
    order, and for each name the same values up to their order. *)
Theorem C1_enum_values_are_concatenated `{Externals} `{!SortContract}
    (traceFile : typeFile) :
  let contributed := Enums traceFile in
  let sorted := sortSort _ Less_enumFiles contributed in
  ∃ after,
    assembleLayout traceFile = inr after
    ∧ NoDup (map enum_Name (Enums after))
    ∧ (∀ x, x ∈ contributed → ∃ e, e ∈ Enums after ∧ enum_Name e = enum_Name x)
    ∧ (∀ e, e ∈ Enums after →
         enum_Values e = valuesNamed sorted (enum_Name e)
         ∧ enum_Values e ≡ₚ valuesNamed contributed (enum_Name e)
         ∧ ∀ v, v ∈ enum_Values e ↔
                ∃ x, x ∈ contributed ∧ enum_Name x = enum_Name e ∧
                     v ∈ enum_Values x)
    ∧ (∀ traceFile' after',
         Enums traceFile' ≡ₚ contributed →
         assembleLayout traceFile' = inr after' →
         map enum_Name (Enums after') = map enum_Name (Enums after)
         ∧ ∀ e e', e ∈ Enums after → e' ∈ Enums after' →
                   enum_Name e = enum_Name e' →
                   enum_Values e ≡ₚ enum_Values e').
Proof.
  intros contributed sorted.
  assert (∀ tf e, e ∈ mergedEnums (sortSort _ Less_enumFiles (Enums tf)) →
            enum_Values e ≡ₚ valuesNamed (Enums tf) (enum_Name e)) as Hperm.
  { intros tf e He. rewrite (mergedEnums_values _ _ He).
    apply valuesNamed_Permutation, sortSort_perm. }
  assert (∀ tf, StronglySorted (λ a b, String.ltb a b = true)
            (map enum_Name (mergedEnums (sortSort _ Less_enumFiles (Enums tf)))))
    as Hstrict.
  { intros tf. rewrite mergedEnums_names.
    apply strictly_ascending_keys, firstByKey_strictly_ascending.
    apply (sortSort_ascending _ Less_enumFiles), _. }
  eexists. split_and!.
  - apply assembleLayout_spec.
  - apply mergedEnums_NoDup.
  - intros x Hx. apply mergedEnums_covers.
    unfold contributed in Hx. by rewrite sortSort_perm.
  - intros e He. simpl in He. split_and!.
    + by apply mergedEnums_values.
    + by apply Hperm.
    + intros v. rewrite (mergedEnums_values _ _ He), elem_of_valuesNamed.
      split; intros (x & Hx & Hrest); exists x; split; try done.
      * unfold sorted in Hx. by rewrite sortSort_perm in Hx.
      * unfold sorted. by rewrite sortSort_perm.
  - intros traceFile' after' Hsame Hafter'.
    rewrite assembleLayout_spec in Hafter'. injection Hafter' as <-. simpl.
    split.
    + apply strictly_ascending_unique; try apply Hstrict;
        try apply mergedEnums_NoDup.
      intros k. rewrite !mergedEnums_names, !firstByKey_keys.
      rewrite !sortSort_perm. by rewrite Hsame.
    + intros e e' He He' Hname.
      rewrite (Hperm _ _ He), (Hperm _ _ He'), Hname.
      apply valuesNamed_Permutation. by symmetry.
Qed.

Lemma C1_enum_values_are_concatenated_witness :
  let E := Reference.externals Reference.acceptAll in
  let traceFile :=
    {| MainType := {| sstruct_Name := "Layout";
                      sstruct_Description := "";
                      sstruct_Fields := [] |};
       Objects := [];
       Enums := [Examples.circleSquare; Examples.squareTriangle];
       FlagLists := [] |} in
  ∃ after,
    @assembleLayout E traceFile = inr after ∧
    NoDup (map enum_Name (Enums after)).
Proof.
  intros E traceFile.
  destruct (@C1_enum_values_are_concatenated E (reference_sort_contract _)
              traceFile) as (after & Hafter & Hunique & _).
  by exists after.
Defined.

(** ** The order of the emitted fields and enums *)

Lemma strictly_ascending_map {A} (key : A → string) (g : A → A) (l : list A) :
  (∀ x, key (g x) = key x) →
  StronglySorted (λ a b, String.ltb (key a) (key b) = true) l →
  StronglySorted (λ a b, String.ltb (key a) (key b) = true) (map g l).
Proof.
  intros Hg. induction 1 as [|x l Hl IH Hx]; simpl; constructor; [done |].
  apply Forall_fmap. eapply Forall_impl; [done |].
  simpl. intros y Hy. by rewrite !Hg.
Qed.

(** C4, counterexample: the main type of a trace starts with
    the field Type, which the fields X and Marker of the parsed attributes
    follow; and the layout ends with the appended axis fields, after the
    field Yaxis of the schema. *)
Lemma C4_counterexample_fields_not_sorted :
  let E := Reference.externals Reference.acceptAll in
  (∃ traceFile,
     @traceTypeFile E Examples.scatterRenderer "scatter" = inr traceFile ∧
     map field_Name (sstruct_Fields (MainType traceFile)) = ["Type"; "X"; "Marker"] ∧
     ¬ ascending Less_structFields (sstruct_Fields (MainType traceFile)))
  ∧ (∃ after,
       @layoutTypeFile E Examples.axesRenderer [] = inr after ∧
       map field_Name (sstruct_Fields (MainType after)) =
         ["Width"; "Xaxis"; "Yaxis"; "XAxis2"; "XAxis3"; "XAxis4"; "XAxis5";
          "XAxis6"; "YAxis2"; "YAxis3"; "YAxis4"; "YAxis5"; "YAxis6"] ∧
       ¬ ascending Less_structFields (sstruct_Fields (MainType after))).
Proof.
  intros E. split; eexists; (split_and!; [reflexivity | reflexivity |]);
    unfold ascending; by_evaluation.
Qed.

(** C4, amended.  For the layout target the fields parsed from the schema
    are sorted by identifier before the duplicate removal, so that the main
    type holds them in strictly ascending order of identifier, followed by
    the ten axis fields in their fixed order; the enums of the layout are
    emitted in strictly ascending order of Name.  WriteTrace and
    WriteConfig sort nothing: the main type of a trace holds the field
    Type followed by the fields in the order in which parseAttributes
    returned them, the main type of the config holds the fields in that
    order, and their objects, enums and flag lists are those left by
    parseAttributes, in its order. *)
Theorem C4_layout_sorted_trace_and_config_in_parse_order
    `{Externals} `{!SortContract} `{!ParseFrame} (r : Renderer) :
  (∀ order parsed,
     layoutParsed r order = inr parsed →
     ∃ after kept,
       layoutTypeFile r order = inr after
       ∧ sstruct_Fields (MainType after) = kept ++ axisFields
       ∧ StronglySorted
           (λ a b, String.ltb (field_Name a) (field_Name b) = true) kept
       ∧ (∀ name, name ∈ map field_Name kept ↔
                  name ∈ map field_Name (sstruct_Fields (MainType parsed)))
       ∧ StronglySorted
           (λ a b, String.ltb (enum_Name a) (enum_Name b) = true) (Enums after))
  ∧ (∀ traceName traceFile,
       traceTypeFile r traceName = inr traceFile →
       ∃ trace file0 fields file1,
         Traces (root_Schema (root r)) !! traceName = Some trace
         ∧ parseAttributes file0 (ToCamelCase (trace_Type trace))
             (ToCamelCase (trace_Type trace)) (trace_Attributes_Names trace)
           = inr (fields, file1)
         ∧ sstruct_Fields (MainType traceFile) = discriminator :: fields
         ∧ Objects traceFile = Objects file1
         ∧ Enums traceFile = Enums file1
         ∧ FlagLists traceFile = FlagLists file1)
  ∧ (∀ traceFile,
       configTypeFile r = inr traceFile →
       ∃ file0 fields file1,
         parseAttributes file0 "Config" "Config"
           (Config_Names (root_Schema (root r))) = inr (fields, file1)
         ∧ sstruct_Fields (MainType traceFile) = fields
         ∧ Objects traceFile = Objects file1
         ∧ Enums traceFile = Enums file1
         ∧ FlagLists traceFile = FlagLists file1).
Proof.
  split_and!.
  - intros order parsed Hparsed. eexists _, _. split_and!.
    + unfold layoutTypeFile. by rewrite Hparsed, assembleLayout_spec.
    + reflexivity.
    + apply firstByKey_strictly_ascending.
      apply (sortSort_ascending _ Less_structFields), _.
    + intros name. apply sorted_fields_names.
    + simpl. unfold mergedEnums.
      apply (strictly_ascending_map enum_Name); [done |].
      apply firstByKey_strictly_ascending.
      apply (sortSort_ascending _ Less_enumFiles), _.
  - intros traceName traceFile. unfold traceTypeFile.
    destruct (Traces (root_Schema (root r)) !! traceName) as [trace|]; [|done].
    simpl.
    destruct (parseAttributes _ _ _ _) as [err|[fields file1]] eqn:Hparse; [done |].
    intros [= <-]. eexists trace, _, fields, file1.
    split_and!; [done | exact Hparse | | done..].
    simpl. by rewrite (parseAttributes_MainType _ _ _ _ _ _ Hparse).
  - intros traceFile. unfold configTypeFile. simpl.
    destruct (parseAttributes _ _ _ _) as [err|[fields file1]] eqn:Hparse; [done |].
    intros [= <-]. eexists _, fields, file1.
    split_and!; [exact Hparse | | done..].
    simpl. by rewrite (parseAttributes_MainType _ _ _ _ _ _ Hparse).
Qed.

(** The stand-in parser registers objects, enums and flag lists and
    leaves the main type of its receiver as it is. *)
Lemma registerObject_MainType file object file' :
  Reference.registerObject file object = inr file' →
  MainType file' = MainType file.
Proof.
  unfold Reference.registerObject.
  destruct (list_find _ _) as [[i o]|].
  - case_decide; [|done]. by intros [= <-].
  - by intros [= <-].
Qed.

Lemma parseAttribute_MainType attr :
  ∀ file parentName name field file',
    Reference.parseAttribute file parentName name attr = inr (field, file') →
    MainType file' = MainType file.
Proof.
  induction attr as [valType|attributes IH|values|flags] using Attribute_tree_ind;
    intros file parentName name field file'; simpl.
  - intros ?; by simplify_eq.
  - match goal with
    | |- context [?f file attributes] =>
        assert (∀ file0 fields file1,
                  f file0 attributes = inr (fields, file1) →
                  MainType file1 = MainType file0) as Hall
    end.
    { clear file field file'. induction IH as [|[n a] rest Ha _ IHrest];
        intros file0 fields file1; simpl.
      - intros ?; by simplify_eq.
      - destruct (Reference.parseAttribute file0 _ n a)
          as [err|[field1 file2]] eqn:Hhead; [done |].
        match goal with
        | |- context [?g file2 rest] =>
            destruct (g file2 rest) as [err|[fields2 file3]] eqn:Htail; [done |]
        end.
        intros ?; simplify_eq. rewrite (IHrest _ _ _ Htail). by eapply Ha. }
    match goal with
    | |- context [?f file attributes] =>
        destruct (f file attributes) as [err|[fields file1]] eqn:Hparse; [done |]
    end.
    destruct (Reference.registerObject _ _) as [err|file2] eqn:Hreg; [done |].
    intros ?; simplify_eq. rewrite (registerObject_MainType _ _ _ Hreg).
    by eapply Hall.
  - intros ?; by simplify_eq.
  - intros ?; by simplify_eq.
Qed.

Lemma parseAttributes_spec_MainType names :
  ∀ file typeName parentName fields file',
    Reference.parseAttributes_spec file typeName parentName names
    = inr (fields, file') →
    MainType file' = MainType file.
Proof.
  induction names as [|[n a] rest IH]; intros file typeName parentName fields file';
    simpl.
  - intros ?; by simplify_eq.
  - destruct (Reference.parseAttribute file parentName n a)
      as [err|[field1 file1]] eqn:Hhead; [done |].
    destruct (Reference.parseAttributes_spec file1 typeName parentName rest)
      as [err|[fields1 file2]] eqn:Htail; [done |].
    intros ?; simplify_eq. rewrite (IH _ _ _ _ _ Htail).
    by eapply parseAttribute_MainType.
Qed.

Lemma reference_parse_frame format : @ParseFrame (Reference.externals format).
Proof.
  split. simpl. intros file typeName parentName names fields file'.
  apply parseAttributes_spec_MainType.
Qed.

Lemma C4_layout_sorted_trace_and_config_in_parse_order_witness :
  let E := Reference.externals Reference.acceptAll in
  (∃ parsed after,
     @layoutParsed E Examples.axesRenderer [] = inr parsed ∧
     @layoutTypeFile E Examples.axesRenderer [] = inr after ∧
     StronglySorted (λ a b, String.ltb (enum_Name a) (enum_Name b) = true)
       (Enums after))
  ∧ (∃ traceFile,
       @traceTypeFile E Examples.scatterRenderer "scatter" = inr traceFile ∧
       head (sstruct_Fields (MainType traceFile)) = Some discriminator)
  ∧ (∃ traceFile,
       @configTypeFile E Examples.scatterRenderer = inr traceFile ∧
       map field_Name (sstruct_Fields (MainType traceFile)) = ["Editable"]).
Proof.
  intros E.
  destruct (@C4_layout_sorted_trace_and_config_in_parse_order E
              (reference_sort_contract _) (reference_parse_frame _)
              Examples.axesRenderer) as (Hlayout & _ & _).
  destruct (@C4_layout_sorted_trace_and_config_in_parse_order E
              (reference_sort_contract _) (reference_parse_frame _)
              Examples.scatterRenderer) as (_ & Htrace & Hconfig).
  split_and!.
  - destruct (Hlayout [] _ eq_refl) as (after & kept & Hafter & _ & _ & _ & Henums).
    by eexists _, after.
  - destruct (Htrace "scatter" _ eq_refl)
      as (trace & file0 & fields & file1 & _ & _ & Hfields & _).
    eexists. split; [reflexivity |]. by rewrite Hfields.
  - destruct (Hconfig _ eq_refl) as (file0 & fields & file1 & _ & Hfields & _).
    eexists. split; reflexivity.
Defined.

(** ** The axis fields of the layout *)

(** C5, counterexample: for the schema without attributes the
    layout type has the ten appended axis fields and no base field, ten
    axis-related fields in all. *)
Lemma C5_counterexample_ten_axis_fields :
  let E := Reference.externals Reference.acceptAll in
  ∃ after,
    @layoutTypeFile E Examples.emptyRenderer [] = inr after ∧
    sstruct_Fields (MainType after) = axisFields ∧
    length (filter axisRelated (sstruct_Fields (MainType after))) = 10 ∧
    length (filter axisRelated (sstruct_Fields (MainType after))) ≠ 12 ∧
    ("xaxis" ∉ map field_JSONName (sstruct_Fields (MainType after))) ∧
    ("yaxis" ∉ map field_JSONName (sstruct_Fields (MainType after))).
Proof.
  intros E. eexists.
  split_and!; [reflexivity | reflexivity | reflexivity | | |]; by_evaluation.
Qed.

(** C5, amended.  Whatever the schema, the Layout type ends with the ten
    fields XAxis2..XAxis6 and YAxis2..YAxis6, five for each of the labels X
    and Y, numbered 2 to 6, of type LayoutXaxis and LayoutYaxis and with
    the wire names xaxis2..xaxis6 and yaxis2..yaxis6.  The fix-up does not
    make the base fields: they are present when the schema declares them,
    and the axis-related fields of the Layout type are ten more than those
    kept from the schema, hence twelve when the schema contributes the two
    base fields and no other field of an axis type. *)
Theorem C5_ten_axis_fields_appended `{Externals} `{!SortContract}
    (r : Renderer) (order : list (string * Trace)) (parsed : typeFile) :
  layoutParsed r order = inr parsed →
  let kept :=
    removeDuplicateFields
      (sortSort _ Less_structFields (sstruct_Fields (MainType parsed))) in
  ∃ after,
    layoutTypeFile r order = inr after
    ∧ sstruct_Fields (MainType after) = kept ++ axisFields
    ∧ map signature axisFields =
        [ ("XAxis2", "xaxis2", "LayoutXaxis"); ("XAxis3", "xaxis3", "LayoutXaxis");
          ("XAxis4", "xaxis4", "LayoutXaxis"); ("XAxis5", "xaxis5", "LayoutXaxis");
          ("XAxis6", "xaxis6", "LayoutXaxis"); ("YAxis2", "yaxis2", "LayoutYaxis");
          ("YAxis3", "yaxis3", "LayoutYaxis"); ("YAxis4", "yaxis4", "LayoutYaxis");
          ("YAxis5", "yaxis5", "LayoutYaxis"); ("YAxis6", "yaxis6", "LayoutYaxis") ]
    ∧ length (filter (λ f, field_Type f = "LayoutXaxis") axisFields) = 5
    ∧ length (filter (λ f, field_Type f = "LayoutYaxis") axisFields) = 5
    ∧ length (filter axisRelated (sstruct_Fields (MainType after))) =
      length (filter axisRelated kept) + 10
    ∧ (length (filter axisRelated kept) = 2 →
       length (filter axisRelated (sstruct_Fields (MainType after))) = 12).
Proof.
  intros Hparsed kept.
  assert (length (filter axisRelated (kept ++ axisFields)) =
          length (filter axisRelated kept) + 10) as Hcount.
  { rewrite filter_app, length_app. f_equal. }
  exists {| MainType := set_Fields (MainType parsed) (kept ++ axisFields);
            Objects := Objects parsed;
            Enums := mergedEnums (sortSort _ Less_enumFiles (Enums parsed));
            FlagLists := FlagLists parsed |}.
  split_and!.
  - unfold layoutTypeFile. rewrite Hparsed, assembleLayout_spec.
    unfold kept. by rewrite removeDuplicateFields_spec.
  - reflexivity.
  - reflexivity.
  - reflexivity.
  - reflexivity.
  - exact Hcount.
  - intros Htwo. etrans; [exact Hcount |]. by rewrite Htwo.
Qed.

Lemma C5_ten_axis_fields_appended_witness :
  let E := Reference.externals Reference.acceptAll in
  ∃ parsed after,
    @layoutParsed E Examples.axesRenderer [] = inr parsed ∧
    @layoutTypeFile E Examples.axesRenderer [] = inr after ∧
    length (filter axisRelated (sstruct_Fields (MainType after))) = 12.
Proof.
  intros E.
  destruct (@C5_ten_axis_fields_appended E (reference_sort_contract _)
              Examples.axesRenderer [] _ eq_refl)
    as (after & Hafter & _ & _ & _ & _ & _ & Htwelve).
  eexists _, after. split_and!; [reflexivity | exact Hafter |].
  apply Htwelve. reflexivity.
Defined.

(** ** Dependence on the order of map iteration *)


(** Neither does the batch creation of the traces. *)
Lemma CreateTraces_order_independent `{Externals} `{!SortContract}
    {Sink : Type} `{Creator Sink}
    (r : Renderer) (order1 order2 : list (string * Trace)) (dir : string)
    (fs : Sink) :
  order1 ≡ₚ order2 → CreateTraces r order1 dir fs = CreateTraces r order2 dir fs.
Proof.
  intros Hp. unfold CreateTraces, sortStrings. f_equal.
  apply ascending_strings_unique.
  - apply (sortSort_ascending _ String.ltb), _.
  - apply (sortSort_ascending _ String.ltb), _.
  - rewrite !sortSort_perm. by apply Permutation_map.
Qed.

(** C3.  WriteLayout visits the traces in the order of the map iteration,
    and for the two traces that contribute the enum of the shapes the
    text written depends on that order: visiting a before b gives the
    values circle, square, square, triangle, visiting b before a gives
    square, triangle, circle, square.  Both orders are orders in which one
    run may visit the same, unchanged schema. *)
Theorem C3_WriteLayout_depends_on_range_order :
  let E := Reference.externals Reference.acceptAll in
  let traces := Traces (root_Schema (root Examples.shapesRenderer)) in
  let order1 := [("a", Examples.shapesA); ("b", Examples.shapesB)] in
  let order2 := [("b", Examples.shapesB); ("a", Examples.shapesA)] in
  range_order traces order1
  ∧ range_order traces order2
  ∧ (∃ after1 after2,
       @layoutTypeFile E Examples.shapesRenderer order1 = inr after1 ∧
       @layoutTypeFile E Examples.shapesRenderer order2 = inr after2 ∧
       map rawValues (Enums after1) = [["circle"; "square"; "square"; "triangle"]] ∧
       map rawValues (Enums after2) = [["square"; "triangle"; "circle"; "square"]])
  ∧ (∃ out1 out2,
       @WriteLayout E Examples.shapesRenderer order1 "" = (inr (), out1) ∧
       @WriteLayout E Examples.shapesRenderer order2 "" = (inr (), out2) ∧
       out1 ≠ out2).
Proof.
  intros E traces order1 order2.
  assert (map_to_list traces = order1) as Hlist by reflexivity.
  split_and!.
  - unfold range_order. by rewrite Hlist.
  - unfold range_order. rewrite Hlist. apply Permutation_swap.
  - eexists _, _. split_and!; reflexivity.
  - eexists _, _. split_and!; [reflexivity | reflexivity |]. by_evaluation.
Qed.

(** ** Persistence *)

Section createFile_facts.
Context `{Externals} {Sink : Type} `{Creator Sink}.

(** A rejected text leaves the sink as it was: nothing is opened and
    nothing is written. *)
Lemma createFile_rejected (write : W unit) (name : string) (fs : Sink) :
  rejected write → ∃ err, createFile write name fs = (Some err, fs).
Proof.
  unfold createFile. intros [(err & src & ->)|(err & src & -> & ->)]; eauto.
Qed.

Lemma createFile_format_error (write : W unit) (name src : string) err (fs : Sink) :
  write "" = (inr (), src) → formatSource src = inl err →
  createFile write name fs = (Some (Errorf "cannot format source, " err), fs).
Proof. unfold createFile. by intros -> ->. Qed.

(** Every run is either rejected, with the sink untouched, or has passed
    the formatter; only then is the destination opened, and what is
    written to it is the formatted text. *)
Lemma createFile_cases (write : W unit) (name : string) (fs : Sink) :
  (rejected write ∧ ∃ err, createFile write name fs = (Some err, fs))
  ∨ (∃ src fmtsrc,
       write "" = (inr (), src) ∧ formatSource src = inr fmtsrc ∧
       createFile write name fs =
       match Create name fs with
       | (inl err, fs1) => (Some err, fs1)
       | (inr file, fs1) =>
           (match fst (Write file fmtsrc fs1) with
            | Some err => Some (Errorf "cannot write source, " err)
            | None => None
            end,
            Close file (snd (Write file fmtsrc fs1)))
       end).
Proof.
  unfold createFile.
  destruct (write "") as [[err|[]] src] eqn:Hwrite.
  - left. split; [left; eauto | eauto].
  - destruct (formatSource src) as [err|fmtsrc] eqn:Hformat.
    + left. split; [right; eauto | eauto].
    + right. exists src, fmtsrc. split_and!; [done | done |].
      destruct (Create name fs) as [[err|file] fs1]; [done |].
      by destruct (Write file fmtsrc fs1) as [[err|] fs2].
Qed.

(** A run that returns no error has passed the formatter. *)
Lemma createFile_success (write : W unit) (name : string) (fs fs' : Sink) :
  createFile write name fs = (None, fs') →
  ∃ src fmtsrc file fs1 fs2,
    write "" = (inr (), src) ∧ formatSource src = inr fmtsrc ∧
    Create name fs = (inr file, fs1) ∧
    Write file fmtsrc fs1 = (None, fs2) ∧
    fs' = Close file fs2.
Proof.
  destruct (createFile_cases write name fs)
    as [(_ & err & ->)|(src & fmtsrc & Hwrite & Hformat & ->)]; [done |].
  destruct (Create name fs) as [[err|file] fs1] eqn:Hcreate; [done |].
  destruct (Write file fmtsrc fs1) as [[err|] fs2] eqn:Hwritten; [done |].
  simpl. intros [= <-]. by exists src, fmtsrc, file, fs1, fs2.
Qed.

End createFile_facts.

(** C6.  Each of CreateTrace, CreateLayout, CreateConfig and
    CreateUnmarshal renders into a buffer and has the text checked by the
    formatter before it opens a destination.  When the writer fails or the
    formatter refuses the text, the function returns an error and the sink
    is as it was: no destination has been created and nothing has been
    written; a refusal of the formatter is reported as "cannot format
    source".  A run that returns no error has passed the formatter, and
    what it wrote is the formatted text. *)
Theorem C6_rejected_text_is_not_persisted `{Externals} {Sink : Type}
    `{Creator Sink} (r : Renderer) (order : list (string * Trace))
    (dir name : string) (fs : Sink) :
  (rejected (WriteTrace r name) →
     ∃ err, CreateTrace r dir name fs = (Some err, fs))
  ∧ (rejected (WriteLayout r order) →
       ∃ err, CreateLayout r order dir fs = (Some err, fs))
  ∧ (rejected (WriteConfig r) →
       ∃ err, CreateConfig r dir fs = (Some err, fs))
  ∧ (rejected (WriteUnmarshal r order) →
       ∃ err, CreateUnmarshal r order dir fs = (Some err, fs))
  ∧ (∀ src err,
       (WriteTrace r name "" = (inr (), src) → formatSource src = inl err →
        CreateTrace r dir name fs
        = (Some (Errorf "cannot format source, " err), fs))
       ∧ (WriteLayout r order "" = (inr (), src) → formatSource src = inl err →
          CreateLayout r order dir fs
          = (Some (Errorf "cannot format source, " err), fs))
       ∧ (WriteConfig r "" = (inr (), src) → formatSource src = inl err →
          CreateConfig r dir fs
          = (Some (Errorf "cannot format source, " err), fs))
       ∧ (WriteUnmarshal r order "" = (inr (), src) → formatSource src = inl err →
          CreateUnmarshal r order dir fs
          = (Some (Errorf "cannot format source, " err), fs)))
  ∧ (∀ fs',
       (CreateTrace r dir name fs = (None, fs') →
        ∃ src fmtsrc file fs1 fs2,
          WriteTrace r name "" = (inr (), src) ∧ formatSource src = inr fmtsrc ∧
          Create (pathJoin dir (name +:+ "_gen.go")) fs = (inr file, fs1) ∧
          Write file fmtsrc fs1 = (None, fs2) ∧ fs' = Close file fs2)
       ∧ (CreateLayout r order dir fs = (None, fs') →
          ∃ src fmtsrc file fs1 fs2,
            WriteLayout r order "" = (inr (), src) ∧ formatSource src = inr fmtsrc ∧
            Create (pathJoin dir "layout_gen.go") fs = (inr file, fs1) ∧
            Write file fmtsrc fs1 = (None, fs2) ∧ fs' = Close file fs2)
       ∧ (CreateConfig r dir fs = (None, fs') →
          ∃ src fmtsrc file fs1 fs2,
            WriteConfig r "" = (inr (), src) ∧ formatSource src = inr fmtsrc ∧
            Create (pathJoin dir "config_gen.go") fs = (inr file, fs1) ∧
            Write file fmtsrc fs1 = (None, fs2) ∧ fs' = Close file fs2)
       ∧ (CreateUnmarshal r order dir fs = (None, fs') →
          ∃ src fmtsrc file fs1 fs2,
            WriteUnmarshal r order "" = (inr (), src) ∧
            formatSource src = inr fmtsrc ∧
            Create (pathJoin dir "unmarshal_gen.go") fs = (inr file, fs1) ∧
            Write file fmtsrc fs1 = (None, fs2) ∧ fs' = Close file fs2)).
Proof.
  split_and!; try apply createFile_rejected.
  - intros src err. split_and!; apply createFile_format_error.
  - intros fs'. split_and!; apply createFile_success.
Qed.

Lemma C6_rejected_text_is_not_persisted_witness :
  let E := Reference.externals Reference.rejectAll in
  @rejected E (@WriteTrace E Examples.scatterRenderer "scatter")
  ∧ ∃ err,
      @CreateTrace E _ Reference.recorder Examples.scatterRenderer
        "graph_objects" "scatter" []
      = (Some err, []).
Proof.
  intros E.
  assert (@rejected E (@WriteTrace E Examples.scatterRenderer "scatter")) as Hrej.
  { right. eexists _, _. split; reflexivity. }
  split; [exact Hrej |].
  destruct (@C6_rejected_text_is_not_persisted E _ Reference.recorder
              Examples.scatterRenderer [] "graph_objects" "scatter" [])
    as (Htrace & _).
  exact (Htrace Hrej).
Defined.

(** With the formatter that accepts the text, the same call opens the
    destination, writes the text and closes it, in that order. *)
Example CreateTrace_accepted_operations :
  let E := Reference.externals Reference.acceptAll in
  ∃ src,
    @WriteTrace E Examples.scatterRenderer "scatter" "" = (inr (), src) ∧
    @CreateTrace E _ Reference.recorder Examples.scatterRenderer
      "graph_objects" "scatter" []
    = (None,
       [ Reference.OpCreate "graph_objects/scatter_gen.go";
         Reference.OpWrite "graph_objects/scatter_gen.go" src;
         Reference.OpClose "graph_objects/scatter_gen.go" ]).
Proof. intros E. eexists. split; reflexivity. Qed.

(** ** The text of a trace *)

Section writer_facts.
Context `{Externals}.

Lemma bind_success {A B} (m : W A) (k : A → W B) w b out :
  (m ≫= k) w = (inr b, out) →
  ∃ a w', m w = (inr a, w') ∧ k a w' = (inr b, out).
Proof.
  unfold mbind, W_bind. destruct (m w) as [[err|a] w']; [done |]. eauto.
Qed.

Lemma ExecuteTemplate_success {D} (t : D → string * option error) data w out :
  ExecuteTemplate t data w = (inr (), out) → out = w +:+ fst (t data).
Proof.
  unfold ExecuteTemplate. destruct (t data) as [text [err|]]; [done |].
  by intros [= <-].
Qed.

Lemma forRange_success {D} (t : D → string * option error) (l : list D) :
  ∀ w out,
    forRange l (ExecuteTemplate t) w = (inr (), out) →
    out = w +:+ concat_strings (map (λ d, fst (t d)) l).
Proof.
  induction l as [|d l IH]; intros w out; simpl.
  - intros [= <-]. by rewrite append_nil_r.
  - intros ([] & w' & Hd & Hl)%bind_success.
    apply ExecuteTemplate_success in Hd as ->. apply IH in Hl as ->.
    by rewrite append_assoc.
Qed.

(** When no template fails, the text written is that of the main type,
    followed by the objects, the enums and the flag lists. *)
Lemma executeTemplates_success traceFile w out :
  executeTemplates traceFile w = (inr (), out) →
  out = w +:+ templatesText traceFile.
Proof.
  unfold executeTemplates, templatesText.
  intros ([] & w1 & Hmain & Hrest)%bind_success.
  apply bind_success in Hrest as ([] & w2 & Hobjects & Hrest).
  apply bind_success in Hrest as ([] & w3 & Henums & Hflags).
  apply ExecuteTemplate_success in Hmain as ->.
  apply forRange_success in Hobjects as ->.
  apply forRange_success in Henums as ->.
  apply forRange_success in Hflags as ->.
  by rewrite !append_assoc.
Qed.




End writer_facts.



(** * Further properties of the renderer *)

(** Case analysis on the membership of a variable in a concrete list. *)
Ltac by_cases_in H :=
  repeat (apply elem_of_cons in H as [->|H]);
  try (by apply elem_of_nil in H).

(** Case analysis on the membership of a byte in the raw symbols. *)
Ltac by_evaluation_raw H :=
  unfold rawSymbols in H; simpl in H;
  repeat (apply elem_of_cons in H as [->|H]; [vm_compute; lia |]);
  by apply elem_of_nil in H.

(** ** Identifier synthesis and literal escaping *)

Section namer_more.

Lemma cleanName_clean s :
  Forall (λ b, b ∉ rawSymbols) (bytes s) → cleanName s = s.
Proof.
  induction s as [|b s IH]; [done |]. simpl.
  intros [Hb Hs]%Forall_cons.
  change (String b s) with (String b "" +:+ s).
  by rewrite cleanName_app, cleanName_other, IH.
Qed.

Lemma cleanName_word old new :
  (old, new) ∈ oldnew_pairs symbolMap → cleanName new = new.
Proof.
  intros Hin. apply cleanName_clean.
  pose proof symbolWords_clean as Hall. rewrite Forall_forall in Hall.
  apply Hall. unfold symbolWords. apply list_elem_of_fmap. by exists (old, new).
Qed.

Lemma append_cancel_l s x y : s +:+ x = s +:+ y → x = y.
Proof.
  induction s as [|b s IH]; [done |].
  rewrite !append_cons. intros [= Heq]. by apply IH.
Qed.

Lemma append_cancel_r x y s : x +:+ s = y +:+ s → x = y.
Proof.
  intros Heq.
  assert (String.length x = String.length y) as Hlen.
  { apply (f_equal String.length) in Heq. rewrite !length_append in Heq. lia. }
  revert y Heq Hlen. induction x as [|b x IH]; intros [|c y]; simpl; try done.
  rewrite !append_cons. intros [= -> Heq] [= Hlen]. f_equal. by apply IH.
Qed.

Lemma count_backslash_app s t :
  count_backslash (s +:+ t) = count_backslash s + count_backslash t.
Proof.
  induction s as [|b s IH]; [done |].
  rewrite append_cons. simpl. rewrite IH. lia.
Qed.

End namer_more.

(** X1.  Identifier synthesis is idempotent, and it leaves a name as it
    is exactly when the name holds none of the raw symbols; it never
    shortens a name. *)
Theorem X1_cleanName_idempotent :
  (∀ name, cleanName (cleanName name) = cleanName name)
  ∧ (∀ name, cleanName name = name ↔ Forall (λ b, b ∉ rawSymbols) (bytes name))
  ∧ (∀ name, String.length name ≤ String.length (cleanName name)).
Proof.
  split_and!.
  - intros name. apply cleanName_clean, Forall_forall.
    intros b. apply cleanName_no_raw_symbol.
  - intros name. split; [|apply cleanName_clean].
    intros Heq. apply Forall_forall. intros b Hb.
    rewrite <- Heq in Hb. by apply cleanName_no_raw_symbol in Hb.
  - induction name as [|b name IH]; [done |].
    change (String b name) with (String b "" +:+ name).
    rewrite cleanName_app, !length_append.
    assert (1 ≤ String.length (cleanName (String b ""))); [|simpl in *; lia].
    destruct (decide (b ∈ rawSymbols)) as [Hb|Hb].
    + by_evaluation_raw Hb.
    + by rewrite cleanName_other.
Qed.

(** X2.  Identifier synthesis does not tell a raw symbol from its word:
    putting the word of a table entry in place of its symbol, anywhere in
    a name, gives the same identifier, so that two different raw values
    can be given one identifier. *)
Theorem X2_cleanName_symbol_and_word_collide (old new s1 s2 : string) :
  (old, new) ∈ oldnew_pairs symbolMap →
  old ≠ new
  ∧ s1 +:+ old +:+ s2 ≠ s1 +:+ new +:+ s2
  ∧ cleanName (s1 +:+ old +:+ s2) = cleanName (s1 +:+ new +:+ s2).
Proof.
  intros Hin.
  assert (old ≠ new) as Hne.
  { revert Hin. simpl. rewrite !elem_of_cons, elem_of_nil.
    intros H; repeat (destruct H as [[= -> ->]|H]; [done |]); done. }
  split_and!.
  - done.
  - intros Heq. apply Hne.
    by apply (append_cancel_r _ _ s2), (append_cancel_l s1).
  - by rewrite !cleanName_app, (cleanName_old old new), (cleanName_word old new).
Qed.

Lemma X2_cleanName_symbol_and_word_collide_witness :
  ("-", "Hyphen") ∈ oldnew_pairs symbolMap
  ∧ cleanName "bottom-left" = cleanName "bottomHyphenleft".
Proof.
  assert (("-", "Hyphen") ∈ oldnew_pairs symbolMap) as Hin by by_evaluation.
  split; [exact Hin |].
  exact (proj2 (proj2 (X2_cleanName_symbol_and_word_collide
                         "-" "Hyphen" "bottom" "left" Hin))).
Defined.

(** X3.  String-literal escaping is injective and distributes over
    concatenation; it doubles the number of backslashes, and it leaves a
    value as it is exactly when the value holds no backslash. *)
Theorem X3_cleanValue_injective_homomorphism :
  (∀ s t, cleanValue s = cleanValue t → s = t)
  ∧ (∀ s t, cleanValue (s +:+ t) = cleanValue s +:+ cleanValue t)
  ∧ (∀ s, count_backslash (cleanValue s) = 2 * count_backslash s)
  ∧ (∀ s, cleanValue s = s ↔ count_backslash s = 0).
Proof.
  split_and!.
  - intros s t Heq. by rewrite <- (unescape_cleanValue s), Heq, unescape_cleanValue.
  - apply cleanValue_app.
  - induction s as [|b s IH]; [done |].
    destruct (decide (b = "\"%char)) as [->|Hb].
    + rewrite cleanValue_backslash. simpl. rewrite IH. lia.
    + rewrite cleanValue_other by done. simpl. rewrite IH.
      rewrite decide_False by done. lia.
  - intros s. split.
    + intros Heq. pose proof (length_cleanValue s) as Hlen.
      rewrite Heq in Hlen. lia.
    + induction s as [|b s IH]; [done |]. simpl.
      destruct (decide (b = "\"%char)) as [->|Hb]; [done |].
      intros Hs. rewrite cleanValue_other by done. by rewrite IH.
Qed.

(** X4.  [contains] answers true exactly for the elements of the slice,
    also when the element occurs only in the second of two slices put
    together. *)
Theorem X4_contains_membership :
  (∀ s e, contains s e = true ↔ e ∈ s)
  ∧ (∀ s e, contains s e = false ↔ e ∉ s)
  ∧ (∀ s t e, contains (s ++ t) e = contains s e || contains t e).
Proof.
  split_and!.
  - apply contains_elem_of.
  - intros s e. rewrite <- contains_elem_of. by destruct (contains s e).
  - intros s t e. induction s as [|a s IH]; [done |]. simpl.
    by case_decide.
Qed.

(** ** The duplicate removal and the merge of enums, on any input *)

Section firstByKey_more.
Context {A : Type} (key : A → string).

Lemma firstByKey_from_id seen (l : list A) :
  NoDup (map key l) → (∀ k, k ∈ map key l → k ∉ seen) →
  firstByKey_from key seen l = l.
Proof.
  revert seen. induction l as [|x l IH]; intros seen; simpl; [done |].
  intros [Hx Hl]%NoDup_cons Hseen.
  rewrite decide_False by (apply Hseen, elem_of_cons; by left).
  f_equal. apply IH; [done |].
  intros k Hk. apply not_elem_of_cons. split.
  - intros ->. done.
  - apply Hseen, elem_of_cons. by right.
Qed.

Lemma firstByKey_id (l : list A) :
  firstByKey key l = l ↔ NoDup (map key l).
Proof.
  split.
  - intros <-. apply firstByKey_NoDup.
  - intros Hnd. apply firstByKey_from_id; [done |].
    intros k _. apply not_elem_of_nil.
Qed.

Lemma filter_key_absent (l : list A) k :
  k ∉ map key l → filter (λ x, key x = k) l = [].
Proof.
  induction l as [|y l IH]; [done |]. simpl.
  intros [Hy Hl]%not_elem_of_cons.
  rewrite filter_cons, decide_False by congruence. by apply IH.
Qed.

Lemma filter_key_single (l : list A) e :
  NoDup (map key l) → e ∈ l → filter (λ x, key x = key e) l = [e].
Proof.
  induction l as [|y l IH]; simpl.
  - by intros _ ?%elem_of_nil.
  - intros [Hy Hl]%NoDup_cons [->|He]%elem_of_cons.
    + rewrite filter_cons, decide_True by done. f_equal.
      by apply filter_key_absent.
    + rewrite filter_cons, decide_False; [by apply IH |].
      intros Heq. apply Hy. rewrite Heq. apply list_elem_of_fmap. by exists e.
Qed.

End firstByKey_more.

(** X5.  The removal of duplicate fields, on any list of fields: what it
    keeps is a sub-list of the input, in the same order, with one field for
    each name of the input; it changes nothing exactly when the names of
    the input are distinct, and applying it twice is applying it once. *)
Theorem X5_removeDuplicateFields_sublist_idempotent (fields : list structField) :
  sublist (removeDuplicateFields fields) fields
  ∧ NoDup (map field_Name (removeDuplicateFields fields))
  ∧ (∀ name, name ∈ map field_Name (removeDuplicateFields fields) ↔
             name ∈ map field_Name fields)
  ∧ (removeDuplicateFields fields = fields ↔ NoDup (map field_Name fields))
  ∧ removeDuplicateFields (removeDuplicateFields fields)
    = removeDuplicateFields fields.
Proof.
  rewrite !removeDuplicateFields_spec. split_and!.
  - apply firstByKey_sublist.
  - apply firstByKey_NoDup.
  - apply firstByKey_keys.
  - apply firstByKey_id.
  - apply firstByKey_id, firstByKey_NoDup.
Qed.

Section merge_more.

Lemma mergeDuplicateEnums_loop_values enums :
  ∀ uniqueEnums (enumMap : gmap string nat) merged,
    mergeDuplicateEnums_loop enums uniqueEnums enumMap = Some merged →
    concat (map enum_Values merged) ≡ₚ
    concat (map enum_Values uniqueEnums) ++ concat (map enum_Values enums).
Proof.
  induction enums as [|enum rest IH]; intros U M merged; simpl.
  - intros [= <-]. by rewrite app_nil_r.
  - destruct (M !! enum_Name enum) as [previous|].
    + destruct (U !! previous) as [e|] eqn:He; [|done].
      intros Hloop%IH. rewrite Hloop. rewrite app_assoc. f_equiv.
      pose proof (take_drop_middle U previous e He) as HU.
      pose proof (lookup_lt_Some _ _ _ He) as Hlt.
      assert (length (take previous U) = previous) as Hlen
        by (rewrite length_take; lia).
      revert HU Hlen.
      generalize (take previous U) (drop (S previous) U). intros U1 U2 <- <-.
      replace (length U1) with (length U1 + 0) at 1 by lia.
      rewrite insert_app_r. simpl.
      rewrite !map_app, !concat_app. simpl.
      rewrite <- !app_assoc. f_equiv. f_equiv. apply Permutation_app_comm.
    + intros Hloop%IH. rewrite Hloop, map_app, concat_app. simpl.
      by rewrite app_nil_r, <- app_assoc.
Qed.

Lemma mergedEnums_id (l : list enumFile) :
  NoDup (map enum_Name l) → mergedEnums l = l.
Proof.
  intros Hnd. unfold mergedEnums.
  rewrite (proj2 (firstByKey_id enum_Name l) Hnd).
  transitivity (map id l); [|apply map_id].
  apply map_ext_in. intros e He%list_elem_of_In.
  unfold gather, valuesNamed. rewrite (filter_key_single enum_Name l e Hnd He).
  simpl. rewrite app_nil_r. by destruct e.
Qed.

End merge_more.

(** X6.  The merge of duplicate enums, on any list of enums: the loop
    never indexes outside its slice; it returns at most as many enums as
    it was given, and every contributed value is in the result as often as
    it was contributed; it changes nothing when the names of the input are
    distinct, and merging the result again changes nothing. *)
Theorem X6_mergeDuplicateEnums_total_conservative (enums : list enumFile) :
  ∃ merged,
    mergeDuplicateEnums enums = Some merged
    ∧ length merged ≤ length enums
    ∧ concat (map enum_Values merged) ≡ₚ concat (map enum_Values enums)
    ∧ (NoDup (map enum_Name enums) → merged = enums)
    ∧ mergeDuplicateEnums merged = Some merged.
Proof.
  exists (mergedEnums enums). split_and!.
  - apply mergeDuplicateEnums_spec.
  - unfold mergedEnums. rewrite length_map.
    apply sublist_length, firstByKey_sublist.
  - apply (mergeDuplicateEnums_loop_values enums [] ∅).
    apply mergeDuplicateEnums_spec.
  - apply mergedEnums_id.
  - rewrite mergeDuplicateEnums_spec. f_equal.
    apply mergedEnums_id, mergedEnums_NoDup.
Qed.

(** ** The decode helper and the batch of traces *)



Section CreateTraces_facts.
Context `{Externals} {Sink : Type} `{Creator Sink}.

Lemma CreateTraces_loop_failure (r : Renderer) (dir : string) names :
  ∀ fs err fs',
    CreateTraces_loop r dir names fs = (Some err, fs') →
    ∃ created failing rest fs0 e,
      names = created ++ failing :: rest
      ∧ CreateTraces_loop r dir created fs = (None, fs0)
      ∧ CreateTrace r dir failing fs0 = (Some e, fs')
      ∧ err = Errorf "cannot create trace, " e.
Proof.
  induction names as [|name rest IH]; intros fs err fs'; simpl; [done |].
  destruct (CreateTrace r dir name fs) as [[e|] fs1] eqn:Hname.
  - intros [= <- <-]. by exists [], name, rest, fs, e.
  - intros (created & failing & rest' & fs0 & e & -> & Hcreated & Hfailing & ->)%IH.
    exists (name :: created), failing, rest', fs0, e. split_and!; try done.
    simpl. by rewrite Hname.
Qed.

Lemma CreateTraces_loop_success (r : Renderer) (dir : string) names :
  ∀ fs fs',
    CreateTraces_loop r dir names fs = (None, fs') →
    ∀ created name rest,
      names = created ++ name :: rest →
      ∃ fs0 fs1,
        CreateTraces_loop r dir created fs = (None, fs0)
        ∧ CreateTrace r dir name fs0 = (None, fs1)
        ∧ CreateTraces_loop r dir rest fs1 = (None, fs').
Proof.
  induction names as [|first names IH]; intros fs fs' Hloop created name rest Heq.
  - by destruct created.
  - simpl in Hloop.
    destruct (CreateTrace r dir first fs) as [[e|] fs1] eqn:Hfirst; [done |].
    destruct created as [|c created]; simpl in Heq; injection Heq as -> ->.
    + by exists fs, fs1.
    + destruct (IH _ _ Hloop created name rest eq_refl)
        as (fs0 & fs2 & Hcreated & Hname & Hrest).
      exists fs0, fs2. split_and!; try done. simpl. by rewrite Hfirst.
Qed.

End CreateTraces_facts.

(** X8.  CreateTraces creates the traces in the ascending order of their
    names, whatever the order in which the map is visited, and stops at
    the first trace that cannot be created: the traces before it have been
    created without error, its error is returned under the message "cannot
    create trace", the sink is as that trace left it, and the traces after
    it are not attempted. *)
Theorem X8_CreateTraces_stops_at_first_failure `{Externals} `{!SortContract}
    {Sink : Type} `{Creator Sink}
    (r : Renderer) (order : list (string * Trace)) (dir : string)
    (fs fs' : Sink) (err : error) :
  CreateTraces r order dir fs = (Some err, fs') →
  ∃ created failing rest fs0 e,
    created ++ failing :: rest ≡ₚ map fst order
    ∧ ascending String.ltb (created ++ failing :: rest)
    ∧ CreateTraces_loop r dir created fs = (None, fs0)
    ∧ CreateTrace r dir failing fs0 = (Some e, fs')
    ∧ err = Errorf "cannot create trace, " e
    ∧ ∀ order', order' ≡ₚ order →
        CreateTraces r order' dir fs = (Some err, fs').
Proof.
  intros Hrun. pose proof Hrun as Hloop. unfold CreateTraces in Hloop.
  apply CreateTraces_loop_failure
    in Hloop as (created & failing & rest & fs0 & e & Hnames & Hcreated & Hfailing & ->).
  exists created, failing, rest, fs0, e. split_and!; try done.
  - rewrite <- Hnames. apply sortSort_perm.
  - rewrite <- Hnames. apply (sortSort_ascending _ String.ltb), _.
  - intros order' Hperm. rewrite <- Hrun.
    by apply CreateTraces_order_independent.
Qed.

Lemma X8_CreateTraces_stops_at_first_failure_witness :
  let E := Reference.externals Reference.rejectAll in
  ∃ err,
    @CreateTraces E _ Reference.recorder Examples.shapesRenderer
      [("b", Examples.shapesB); ("a", Examples.shapesA)] "out" []
    = (Some (Errorf "cannot create trace, " err), []).
Proof.
  intros E.
  destruct (@X8_CreateTraces_stops_at_first_failure E (reference_sort_contract _)
              _ Reference.recorder Examples.shapesRenderer
              [("b", Examples.shapesB); ("a", Examples.shapesA)] "out" [] _ _
              eq_refl)
    as (created & failing & rest & fs0 & e & _ & _ & _ & _ & Herr & _).
  eexists. reflexivity.
Defined.

(** X9.  When CreateTraces returns no error, every trace of the schema has
    been created without error, each from the sink that its predecessors
    in ascending order of name left. *)
Theorem X9_CreateTraces_success_creates_all `{Externals} `{!SortContract}
    {Sink : Type} `{Creator Sink}
    (r : Renderer) (order : list (string * Trace)) (dir : string)
    (fs fs' : Sink) (name : string) :
  CreateTraces r order dir fs = (None, fs') →
  name ∈ map fst order →
  ∃ created rest fs0 fs1,
    created ++ name :: rest ≡ₚ map fst order
    ∧ ascending String.ltb (created ++ name :: rest)
    ∧ CreateTraces_loop r dir created fs = (None, fs0)
    ∧ CreateTrace r dir name fs0 = (None, fs1)
    ∧ CreateTraces_loop r dir rest fs1 = (None, fs').
Proof.
  intros Hrun Hname. unfold CreateTraces in Hrun.
  assert (name ∈ sortStrings (map fst order)) as Hin.
  { unfold sortStrings. by rewrite sortSort_perm. }
  apply list_elem_of_split in Hin as (created & rest & Hnames).
  destruct (CreateTraces_loop_success r dir _ _ _ Hrun created name rest Hnames)
    as (fs0 & fs1 & Hcreated & Hcreate & Hrest).
  exists created, rest, fs0, fs1. split_and!; try done.
  - rewrite <- Hnames. apply sortSort_perm.
  - rewrite <- Hnames. apply (sortSort_ascending _ String.ltb), _.
Qed.

Lemma X9_CreateTraces_success_creates_all_witness :
  let E := Reference.externals Reference.acceptAll in
  ∃ fs' fs0 fs1,
    @CreateTraces E _ Reference.recorder Examples.shapesRenderer
      [("b", Examples.shapesB); ("a", Examples.shapesA)] "out" []
    = (None, fs')
    ∧ @CreateTrace E _ Reference.recorder Examples.shapesRenderer "out" "b" fs0
      = (None, fs1).
Proof.
  intros E.
  destruct (@X9_CreateTraces_success_creates_all E (reference_sort_contract _)
              _ Reference.recorder Examples.shapesRenderer
              [("b", Examples.shapesB); ("a", Examples.shapesA)] "out" [] _ "b"
              eq_refl)
    as (created & rest & fs0 & fs1 & _ & _ & _ & Hcreate & _).
  { by_evaluation. }
  eexists _, fs0, fs1. split; [reflexivity | exact Hcreate].
Defined.

(** ** Failures while the type graph is built or rendered *)

Section writer_failures.
Context `{Externals}.

Lemma layoutContributions_error order :
  ∀ traceFile err,
    layoutContributions order traceFile = inl err →
    ∃ e, err = Errorf "cannot parse attributes, " e.
Proof.
  induction order as [|[name trace] rest IH]; intros traceFile err; simpl; [done |].
  destruct (parseAttributes _ _ _ _) as [e|[fields file]].
  - intros [= <-]. by exists e.
  - apply IH.
Qed.

Lemma layoutTypeFile_error r order err :
  layoutTypeFile r order = inl err →
  ∃ e, err = Errorf "cannot parse attributes, " e.
Proof.
  unfold layoutTypeFile.
  destruct (layoutParsed r order) as [e|parsed] eqn:Hparsed.
  - intros [= <-]. unfold layoutParsed in Hparsed.
    destruct (parseAttributes _ _ _ _) as [e'|[fields file]].
    + injection Hparsed as <-. by exists e'.
    + by eapply layoutContributions_error.
  - by rewrite assembleLayout_spec.
Qed.

Lemma forRange_all_succeed {D} (t : D → string * option error) (l : list D) w :
  Forall (λ d, snd (t d) = None) l →
  forRange l (ExecuteTemplate t) w
  = (inr (), w +:+ concat_strings (map (λ d, fst (t d)) l)).
Proof.
  intros Hall. revert w. induction Hall as [|d l Hd Hl IH]; intros w; simpl.
  - by rewrite append_nil_r.
  - unfold mbind, W_bind, ExecuteTemplate at 1.
    destruct (t d) as [text err]. simpl in Hd. subst err. simpl.
    by rewrite IH, append_assoc.
Qed.

Lemma forRange_first_failure {D} (t : D → string * option error)
    (l1 l2 : list D) (x : D) e w :
  Forall (λ d, snd (t d) = None) l1 → snd (t x) = Some e →
  forRange (l1 ++ x :: l2) (ExecuteTemplate t) w
  = (inl e, w +:+ concat_strings (map (λ d, fst (t d)) l1) +:+ fst (t x)).
Proof.
  intros Hall Hx. revert w. induction Hall as [|d l Hd Hl IH]; intros w; simpl.
  - unfold mbind, W_bind, ExecuteTemplate at 1.
    destruct (t x) as [text err]. simpl in Hx. subst err. simpl.
    by rewrite append_nil_l.
  - unfold mbind, W_bind, ExecuteTemplate at 1.
    destruct (t d) as [text err]. simpl in Hd. subst err. simpl.
    by rewrite IH, !append_assoc.
Qed.

Lemma forRange_success_all {D} (t : D → string * option error) (l : list D) :
  ∀ w out,
    forRange l (ExecuteTemplate t) w = (inr (), out) →
    Forall (λ d, snd (t d) = None) l.
Proof.
  induction l as [|d l IH]; intros w out; simpl; [by constructor |].
  unfold mbind, W_bind, ExecuteTemplate at 1.
  destruct (t d) as [text [err|]] eqn:Hd; simpl; [done |].
  intros Hl%IH. constructor; [by rewrite Hd | done].
Qed.

End writer_failures.

(** X10.  A failure of parseAttributes stops each of the three writers of
    type graphs before anything is written: the writer is left as it was
    and the error is returned under the message "cannot parse attributes".
    WriteLayout and WriteConfig fail before writing in no other way; in
    particular the merge of the enums of the layout never indexes outside
    its slice.  WriteTrace fails in the same way, or on a name that is not
    a trace of the schema. *)
Theorem X10_parse_failure_writes_nothing `{Externals}
    (r : Renderer) (order : list (string * Trace)) (traceName w : string)
    (err : error) :
  (layoutTypeFile r order = inl err →
     WriteLayout r order w = (inl err, w)
     ∧ ∃ e, err = Errorf "cannot parse attributes, " e)
  ∧ (configTypeFile r = inl err →
       WriteConfig r w = (inl err, w)
       ∧ ∃ e, err = Errorf "cannot parse attributes, " e)
  ∧ (traceTypeFile r traceName = inl err →
       WriteTrace r traceName w = (inl err, w)
       ∧ ((∃ e, err = Errorf "cannot parse attributes, " e)
          ∨ Traces (root_Schema (root r)) !! traceName = None)).
Proof.
  split_and!.
  - intros Herr. split; [|by eapply layoutTypeFile_error].
    unfold WriteLayout. by rewrite Herr.
  - intros Herr. split; [unfold WriteConfig; by rewrite Herr |].
    unfold configTypeFile in Herr.
    destruct (parseAttributes _ _ _ _) as [e|[fields file]]; [|done].
    injection Herr as <-. by exists e.
  - intros Herr. split; [unfold WriteTrace; by rewrite Herr |].
    unfold traceTypeFile in Herr.
    destruct (Traces (root_Schema (root r)) !! traceName) as [trace|];
      [|by right].
    left. simpl in Herr.
    destruct (parseAttributes _ _ _ _) as [e|[fields file]]; [|done].
    injection Herr as <-. by exists e.
Qed.

Lemma X10_parse_failure_writes_nothing_witness :
  let E := Reference.externals Reference.acceptAll in
  ∃ err,
    @layoutTypeFile E MoreExamples.clashingRenderer [] = inl err
    ∧ @WriteLayout E MoreExamples.clashingRenderer [] "" = (inl err, "")
    ∧ @configTypeFile E MoreExamples.clashingRenderer = inl err
    ∧ @WriteConfig E MoreExamples.clashingRenderer "" = (inl err, "").
Proof.
  intros E.
  exists (Errorf "cannot parse attributes, " (External "type synthesis error")).
  destruct (@X10_parse_failure_writes_nothing E MoreExamples.clashingRenderer
              [] "legend" ""
              (Errorf "cannot parse attributes, "
                 (External "type synthesis error")))
    as (Hlayout & Hconfig & _).
  split_and!.
  - reflexivity.
  - exact (proj1 (Hlayout eq_refl)).
  - reflexivity.
  - exact (proj1 (Hconfig eq_refl)).
Defined.

(** X11.  The templates of a type graph are executed to the end exactly
    when none of them fails, and the text written is then that of the main
    type followed by the texts of the objects, of the enums and of the
    flag lists, each in the order of its list. *)
Theorem X11_templates_succeed_together `{Externals}
    (traceFile : typeFile) (w : string) :
  let succeed :=
    snd (trace_tmpl (MainType traceFile)) = None
    ∧ Forall (λ o, snd (trace_tmpl o) = None) (Objects traceFile)
    ∧ Forall (λ e, snd (enum_tmpl e) = None) (Enums traceFile)
    ∧ Forall (λ f, snd (flaglist_tmpl f) = None) (FlagLists traceFile) in
  (succeed →
     executeTemplates traceFile w = (inr (), w +:+ templatesText traceFile))
  ∧ (∀ out,
       executeTemplates traceFile w = (inr (), out) →
       succeed ∧ out = w +:+ templatesText traceFile).
Proof.
  intros succeed. split.
  - intros (Hmain & Hobjects & Henums & Hflags).
    unfold executeTemplates, templatesText, mbind, W_bind.
    unfold ExecuteTemplate at 1.
    destruct (trace_tmpl (MainType traceFile)) as [text err].
    simpl in Hmain. subst err. simpl.
    rewrite (forRange_all_succeed _ _ _ Hobjects).
    rewrite (forRange_all_succeed _ _ _ Henums).
    rewrite (forRange_all_succeed _ _ _ Hflags).
    by rewrite !append_assoc.
  - intros out Hrun. split; [|by apply executeTemplates_success].
    unfold executeTemplates in Hrun.
    apply bind_success in Hrun as ([] & w1 & Hmain & Hrun).
    apply bind_success in Hrun as ([] & w2 & Hobjects & Hrun).
    apply bind_success in Hrun as ([] & w3 & Henums & Hflags).
    unfold succeed. split_and!.
    + unfold ExecuteTemplate in Hmain.
      by destruct (trace_tmpl (MainType traceFile)) as [text [err|]].
    + by eapply forRange_success_all.
    + by eapply forRange_success_all.
    + by eapply forRange_success_all.
Qed.

Lemma X11_templates_succeed_together_witness :
  let E := Reference.externals Reference.acceptAll in
  ∃ traceFile,
    @traceTypeFile E Examples.scatterRenderer "scatter" = inr traceFile
    ∧ @executeTemplates E traceFile ""
      = (inr (), "" +:+ @templatesText E traceFile).
Proof.
  intros E. eexists. split; [reflexivity |].
  refine (proj1 (@X11_templates_succeed_together E _ "") _).
  split_and!; [reflexivity | | |]; by_evaluation.
Defined.

(** X12.  The templates stop at the first one that fails: its error is
    returned, the writer holds what the templates before it wrote and what
    the failing one wrote before it failed, and no later template is
    executed.  When the template of the main type fails, no object, enum
    or flag list is rendered; when that of an object fails, no later
    object, no enum and no flag list is; when that of an enum fails, no
    later enum and no flag list is; when that of a flag list fails, no
    later flag list is. *)
Theorem X12_templates_stop_at_first_failure `{Externals}
    (traceFile : typeFile) (w : string) (e : error) :
  (snd (trace_tmpl (MainType traceFile)) = Some e →
     executeTemplates traceFile w
     = (inl e, w +:+ fst (trace_tmpl (MainType traceFile))))
  ∧ (∀ rendered object rest,
       snd (trace_tmpl (MainType traceFile)) = None →
       Objects traceFile = rendered ++ object :: rest →
       Forall (λ o, snd (trace_tmpl o) = None) rendered →
       snd (trace_tmpl object) = Some e →
       executeTemplates traceFile w
       = (inl e,
          w +:+ fst (trace_tmpl (MainType traceFile)) +:+
          concat_strings (map (λ o, fst (trace_tmpl o)) rendered) +:+
          fst (trace_tmpl object)))
  ∧ (∀ rendered enum rest,
       snd (trace_tmpl (MainType traceFile)) = None →
       Forall (λ o, snd (trace_tmpl o) = None) (Objects traceFile) →
       Enums traceFile = rendered ++ enum :: rest →
       Forall (λ x, snd (enum_tmpl x) = None) rendered →
       snd (enum_tmpl enum) = Some e →
       executeTemplates traceFile w
       = (inl e,
          w +:+ fst (trace_tmpl (MainType traceFile)) +:+
          concat_strings (map (λ o, fst (trace_tmpl o)) (Objects traceFile)) +:+
          concat_strings (map (λ x, fst (enum_tmpl x)) rendered) +:+
          fst (enum_tmpl enum)))
  ∧ (∀ rendered flags rest,
       snd (trace_tmpl (MainType traceFile)) = None →
       Forall (λ o, snd (trace_tmpl o) = None) (Objects traceFile) →
       Forall (λ x, snd (enum_tmpl x) = None) (Enums traceFile) →
       FlagLists traceFile = rendered ++ flags :: rest →
       Forall (λ f, snd (flaglist_tmpl f) = None) rendered →
       snd (flaglist_tmpl flags) = Some e →
       executeTemplates traceFile w
       = (inl e,
          w +:+ fst (trace_tmpl (MainType traceFile)) +:+
          concat_strings (map (λ o, fst (trace_tmpl o)) (Objects traceFile)) +:+
          concat_strings (map (λ x, fst (enum_tmpl x)) (Enums traceFile)) +:+
          concat_strings (map (λ f, fst (flaglist_tmpl f)) rendered) +:+
          fst (flaglist_tmpl flags))).
Proof.
  split_and!.
  - intros Hmain. unfold executeTemplates, mbind, W_bind.
    unfold ExecuteTemplate at 1.
    destruct (trace_tmpl (MainType traceFile)) as [text err].
    simpl in Hmain. by subst err.
  - intros rendered object rest Hmain Hobjects Hrendered Hobject.
    unfold executeTemplates, mbind, W_bind. unfold ExecuteTemplate at 1.
    destruct (trace_tmpl (MainType traceFile)) as [text err].
    simpl in Hmain. subst err. simpl.
    rewrite Hobjects, (forRange_first_failure _ _ _ _ _ _ Hrendered Hobject).
    by rewrite !append_assoc.
  - intros rendered enum rest Hmain Hobjects Henums Hrendered Henum.
    unfold executeTemplates, mbind, W_bind. unfold ExecuteTemplate at 1.
    destruct (trace_tmpl (MainType traceFile)) as [text err].
    simpl in Hmain. subst err. simpl.
    rewrite (forRange_all_succeed _ _ _ Hobjects).
    rewrite Henums, (forRange_first_failure _ _ _ _ _ _ Hrendered Henum).
    by rewrite !append_assoc.
  - intros rendered flags rest Hmain Hobjects Henums Hflags Hrendered Hflag.
    unfold executeTemplates, mbind, W_bind. unfold ExecuteTemplate at 1.
    destruct (trace_tmpl (MainType traceFile)) as [text err].
    simpl in Hmain. subst err. simpl.
    rewrite (forRange_all_succeed _ _ _ Hobjects).
    rewrite (forRange_all_succeed _ _ _ Henums).
    rewrite Hflags, (forRange_first_failure _ _ _ _ _ _ Hrendered Hflag).
    by rewrite !append_assoc.
Qed.

Lemma X12_templates_stop_at_first_failure_witness :
  let failing :=
    External "template: error calling index" in
  let E :=
    {| ToCamelCase := Reference.camelCase;
       parseAttributes := Reference.parseAttributes_spec;
       sortSort := Reference.insertionSort;
       trace_tmpl := MoreExamples.failing_tmpl;
       enum_tmpl := Reference.render_enum;
       flaglist_tmpl := Reference.render_flaglist;
       unmarshal_tmpl := Reference.render_unmarshal;
       formatSource := Reference.acceptAll;
       pathJoin := λ dir name, dir +:+ "/" +:+ name |} in
  let F :=
    {| ToCamelCase := Reference.camelCase;
       parseAttributes := Reference.parseAttributes_spec;
       sortSort := Reference.insertionSort;
       trace_tmpl := Reference.render_struct;
       enum_tmpl := Reference.render_enum;
       flaglist_tmpl := MoreExamples.failing_tmpl;
       unmarshal_tmpl := Reference.render_unmarshal;
       formatSource := Reference.acceptAll;
       pathJoin := λ dir name, dir +:+ "/" +:+ name |} in
  (∃ traceFile,
     @traceTypeFile E Examples.scatterRenderer "scatter" = inr traceFile
     ∧ @executeTemplates E traceFile "package grob"
       = (inl failing, "package grobtype "))
  ∧ (∃ traceFile flags,
       @traceTypeFile F MoreExamples.hoverRenderer "bar" = inr traceFile
       ∧ FlagLists traceFile = [flags]
       ∧ @executeTemplates F traceFile ""
         = (inl failing,
            "" +:+ fst (Reference.render_struct (MainType traceFile)) +:+
            "" +:+ "" +:+ "" +:+ "type ")).
Proof.
  intros failing E F. split.
  - eexists. split; [reflexivity |].
    exact (proj1 (@X12_templates_stop_at_first_failure E _ "package grob"
                    failing) eq_refl).
  - eexists. eexists. split; [reflexivity |]. split; [reflexivity |].
    etrans.
    + eapply (proj2 (proj2 (proj2
               (@X12_templates_stop_at_first_failure F _ "" failing)))
               [] _ []).
      * reflexivity.
      * constructor.
      * constructor.
      * reflexivity.
      * constructor.
      * reflexivity.
    + reflexivity.
Defined.

(** ** The layout and config artifacts *)

Section layout_artifact.
Context `{Externals} `{!ParseFrame}.



End layout_artifact.



(** ** Persistence on a sink that may fail *)

Section disk_facts.
Context `{Externals} (createFails writeFails : string → bool).

Lemma createFile_disk_closed (write : W unit) (name : string) (d : Disk.disk) :
  Disk.opened d = [] →
  Disk.opened
    (snd (@createFile _ _ (Disk.faulty createFails writeFails) write name d)) = [].
Proof.
  intros Hclosed. unfold createFile.
  destruct (write "") as [[err|[]] src]; [done |].
  destruct (formatSource src) as [err|fmtsrc]; [done |].
  simpl. destruct (createFails name); [done |].
  destruct (writeFails name); simpl; rewrite Hclosed;
    by rewrite filter_cons, decide_False by (by intros []).
Qed.

Lemma createFile_disk_content (write : W unit) (name : string)
    (d d' : Disk.disk) :
  @createFile _ _ (Disk.faulty createFails writeFails) write name d = (None, d') →
  ∃ src fmtsrc,
    write "" = (inr (), src) ∧ formatSource src = inr fmtsrc
    ∧ Disk.files d' !! name = Some fmtsrc
    ∧ ∀ other, other ≠ name → Disk.files d' !! other = Disk.files d !! other.
Proof.
  unfold createFile.
  destruct (write "") as [[err|[]] src] eqn:Hwrite; [done |].
  destruct (formatSource src) as [err|fmtsrc] eqn:Hformat; [done |].
  simpl. destruct (createFails name); [done |].
  destruct (writeFails name); simpl; [done |].
  intros [= <-]. exists src, fmtsrc. simpl. split_and!; try done.
  - by rewrite lookup_alter_eq, lookup_insert_eq.
  - intros other Hother.
    by rewrite lookup_alter_ne, lookup_insert_ne by done.
Qed.

Lemma createFile_disk_failed_write (write : W unit) (name src fmtsrc : string)
    (d : Disk.disk) :
  write "" = (inr (), src) → formatSource src = inr fmtsrc →
  createFails name = false → writeFails name = true →
  ∃ d',
    @createFile _ _ (Disk.faulty createFails writeFails) write name d
    = (Some (Errorf "cannot write source, " (External "write failed")), d')
    ∧ Disk.files d' !! name = Some "".
Proof.
  intros Hwrite Hformat Hcreate Hfail. unfold createFile.
  rewrite Hwrite, Hformat. simpl. rewrite Hcreate, Hfail. simpl.
  eexists. split; [reflexivity |]. simpl. by rewrite lookup_insert_eq.
Qed.

Lemma CreateTraces_loop_disk_closed (r : Renderer) (dir : string) names :
  ∀ d, Disk.opened d = [] →
       Disk.opened
         (snd (@CreateTraces_loop _ _ (Disk.faulty createFails writeFails)
                 r dir names d)) = [].
Proof.
  induction names as [|name rest IH]; intros d Hclosed; simpl; [done |].
  pose proof (createFile_disk_closed (WriteTrace r name)
                (pathJoin dir (name +:+ "_gen.go")) d Hclosed) as Hstep.
  unfold CreateTrace.
  destruct (createFile _ _ d) as [[err|] d1]; [done |]. by apply IH.
Qed.

End disk_facts.

(** X14.  On a sink in memory whose opening and writing may fail at any
    destination, none of CreateTrace, CreateLayout, CreateConfig,
    CreateUnmarshal and CreateTraces leaves a destination open: each
    destination that was opened is closed before the function returns,
    also when the write fails and for every trace of a batch. *)
Theorem X14_no_destination_left_open `{Externals}
    (createFails writeFails : string → bool)
    (r : Renderer) (order : list (string * Trace)) (dir name : string)
    (d : Disk.disk) :
  Disk.opened d = [] →
  let sink := Disk.faulty createFails writeFails in
  Disk.opened (snd (@CreateTrace _ _ sink r dir name d)) = []
  ∧ Disk.opened (snd (@CreateLayout _ _ sink r order dir d)) = []
  ∧ Disk.opened (snd (@CreateConfig _ _ sink r dir d)) = []
  ∧ Disk.opened (snd (@CreateUnmarshal _ _ sink r order dir d)) = []
  ∧ Disk.opened (snd (@CreateTraces _ _ sink r order dir d)) = [].
Proof.
  intros Hclosed sink. split_and!; try by apply createFile_disk_closed.
  by apply CreateTraces_loop_disk_closed.
Qed.

Lemma X14_no_destination_left_open_witness :
  let E := Reference.externals Reference.acceptAll in
  let d := {| Disk.opened := []; Disk.files := ∅ |} in
  let sink := Disk.faulty (λ _, false) (λ _, true) in
  Disk.opened (snd (@CreateTrace E _ sink Examples.scatterRenderer "out" "scatter" d))
  = [].
Proof.
  intros E d sink.
  exact (proj1 (@X14_no_destination_left_open E (λ _, false) (λ _, true)
                  Examples.scatterRenderer [] "out" "scatter" d eq_refl)).
Defined.

(** X15.  On the same sink, a creation that returns no error leaves at
    its destination exactly the formatted text of the artifact, whatever
    the file held before, and leaves every other file as it was; a
    creation whose write fails reports "cannot write source" and leaves
    the destination empty. *)
Theorem X15_destination_holds_formatted_text `{Externals}
    (createFails writeFails : string → bool)
    (r : Renderer) (order : list (string * Trace)) (dir name : string)
    (d d' : Disk.disk) :
  let sink := Disk.faulty createFails writeFails in
  (@CreateTrace _ _ sink r dir name d = (None, d') →
     ∃ src fmtsrc,
       WriteTrace r name "" = (inr (), src) ∧ formatSource src = inr fmtsrc
       ∧ Disk.files d' !! pathJoin dir (name +:+ "_gen.go") = Some fmtsrc
       ∧ ∀ other, other ≠ pathJoin dir (name +:+ "_gen.go") →
                  Disk.files d' !! other = Disk.files d !! other)
  ∧ (@CreateLayout _ _ sink r order dir d = (None, d') →
       ∃ src fmtsrc,
         WriteLayout r order "" = (inr (), src) ∧ formatSource src = inr fmtsrc
         ∧ Disk.files d' !! pathJoin dir "layout_gen.go" = Some fmtsrc
         ∧ ∀ other, other ≠ pathJoin dir "layout_gen.go" →
                    Disk.files d' !! other = Disk.files d !! other)
  ∧ (@CreateConfig _ _ sink r dir d = (None, d') →
       ∃ src fmtsrc,
         WriteConfig r "" = (inr (), src) ∧ formatSource src = inr fmtsrc
         ∧ Disk.files d' !! pathJoin dir "config_gen.go" = Some fmtsrc
         ∧ ∀ other, other ≠ pathJoin dir "config_gen.go" →
                    Disk.files d' !! other = Disk.files d !! other)
  ∧ (@CreateUnmarshal _ _ sink r order dir d = (None, d') →
       ∃ src fmtsrc,
         WriteUnmarshal r order "" = (inr (), src) ∧ formatSource src = inr fmtsrc
         ∧ Disk.files d' !! pathJoin dir "unmarshal_gen.go" = Some fmtsrc
         ∧ ∀ other, other ≠ pathJoin dir "unmarshal_gen.go" →
                    Disk.files d' !! other = Disk.files d !! other)
  ∧ (∀ src fmtsrc,
       WriteTrace r name "" = (inr (), src) → formatSource src = inr fmtsrc →
       createFails (pathJoin dir (name +:+ "_gen.go")) = false →
       writeFails (pathJoin dir (name +:+ "_gen.go")) = true →
       ∃ d1,
         @CreateTrace _ _ sink r dir name d
         = (Some (Errorf "cannot write source, " (External "write failed")), d1)
         ∧ Disk.files d1 !! pathJoin dir (name +:+ "_gen.go") = Some "").
Proof.
  intros sink. split_and!; try apply createFile_disk_content.
  intros src fmtsrc. apply createFile_disk_failed_write.
Qed.

Lemma X15_destination_holds_formatted_text_witness :
  let E := Reference.externals Reference.acceptAll in
  let d := {| Disk.opened := [];
              Disk.files := {[ "out/scatter_gen.go" := "package old" ]} |} in
  let sink := Disk.faulty (λ _, false) (λ _, false) in
  ∃ d' src,
    @CreateTrace E _ sink Examples.scatterRenderer "out" "scatter" d = (None, d')
    ∧ @WriteTrace E Examples.scatterRenderer "scatter" "" = (inr (), src)
    ∧ Disk.files d' !! "out/scatter_gen.go" = Some src.
Proof.
  intros E d sink.
  set (d' := snd (@CreateTrace E _ sink Examples.scatterRenderer "out" "scatter" d)).
  destruct (@X15_destination_holds_formatted_text E (λ _, false) (λ _, false)
              Examples.scatterRenderer [] "out" "scatter" d d')
    as (Htrace & _).
  destruct (Htrace eq_refl) as (src & fmtsrc & Hsrc & Hformat & Hfile & _).
  exists d', src. split_and!; [reflexivity | exact Hsrc |].
  simpl in Hformat. injection Hformat as <-. exact Hfile.
Defined.

(** ** The layout and the order of the contributions *)

Section agreement_facts.
Context {A : Type} (key : A → string).

Lemma same_keys_agree (l1 l2 : list A) :
  map key l1 = map key l2 →
  (∀ a b, a ∈ l1 → b ∈ l2 → key a = key b → a = b) →
  l1 = l2.
Proof.
  revert l2. induction l1 as [|a l1 IH]; intros [|b l2]; simpl; try done.
  intros [= Hab Hrest] Hagree. f_equal.
  - apply Hagree; [apply elem_of_cons; by left .. | done].
  - apply IH; [done |]. intros a' b' Ha' Hb'.
    apply Hagree; apply elem_of_cons; by right.
Qed.

End agreement_facts.

(** X16.  The identifiers of the fields of the layout main type, and their
    order, do not depend on the order in which the fields were
    contributed; when the contributed fields of one name are all the same
    field, neither do the fields themselves. *)
Theorem X16_layout_field_names_order_independent `{Externals} `{!SortContract}
    (traceFile traceFile' : typeFile) :
  sstruct_Fields (MainType traceFile) ≡ₚ sstruct_Fields (MainType traceFile') →
  ∃ after after',
    assembleLayout traceFile = inr after
    ∧ assembleLayout traceFile' = inr after'
    ∧ map field_Name (sstruct_Fields (MainType after))
      = map field_Name (sstruct_Fields (MainType after'))
    ∧ ((∀ f g, f ∈ sstruct_Fields (MainType traceFile) →
               g ∈ sstruct_Fields (MainType traceFile) →
               field_Name f = field_Name g → f = g) →
       sstruct_Fields (MainType after) = sstruct_Fields (MainType after')).
Proof.
  intros Hperm. eexists _, _.
  split; [apply assembleLayout_spec |]. split; [apply assembleLayout_spec |].
  set (kept := firstByKey field_Name
                 (sortSort _ Less_structFields (sstruct_Fields (MainType traceFile)))).
  set (kept' := firstByKey field_Name
                  (sortSort _ Less_structFields (sstruct_Fields (MainType traceFile')))).
  assert (map field_Name kept = map field_Name kept') as Hnames.
  { apply strictly_ascending_unique.
    - apply strictly_ascending_keys, firstByKey_strictly_ascending.
      apply (sortSort_ascending _ Less_structFields), _.
    - apply strictly_ascending_keys, firstByKey_strictly_ascending.
      apply (sortSort_ascending _ Less_structFields), _.
    - apply firstByKey_NoDup.
    - apply firstByKey_NoDup.
    - intros k. unfold kept, kept'. rewrite !sorted_fields_names. by rewrite Hperm. }
  split.
  - change (map field_Name (kept ++ axisFields)
            = map field_Name (kept' ++ axisFields)).
    by rewrite !map_app, Hnames.
  - intros Hagree. change (kept ++ axisFields = kept' ++ axisFields).
    f_equal. apply (same_keys_agree field_Name); [done |].
    intros f g Hf Hg. apply Hagree.
    + eapply elem_of_sublist in Hf; [|apply firstByKey_sublist].
      by rewrite sortSort_perm in Hf.
    + eapply elem_of_sublist in Hg; [|apply firstByKey_sublist].
      by rewrite sortSort_perm, <- Hperm in Hg.
Qed.

Lemma X16_layout_field_names_order_independent_witness :
  let E := Reference.externals Reference.acceptAll in
  let width := Reference.attributeField "width" "float64" in
  let height := Reference.attributeField "height" "float64" in
  let fileOf fields :=
    {| MainType := {| sstruct_Name := "Layout";
                      sstruct_Description := "Plot layout options";
                      sstruct_Fields := fields |};
       Objects := []; Enums := []; FlagLists := [] |} in
  ∃ after after',
    @assembleLayout E (fileOf [width; height; width]) = inr after
    ∧ @assembleLayout E (fileOf [height; width; width]) = inr after'
    ∧ sstruct_Fields (MainType after) = sstruct_Fields (MainType after').
Proof.
  intros E width height fileOf.
  destruct (@X16_layout_field_names_order_independent E
              (reference_sort_contract _)
              (fileOf [width; height; width]) (fileOf [height; width; width]))
    as (after & after' & Hafter & Hafter' & _ & Hsame).
  { simpl. apply Permutation_swap. }
  exists after, after'. split_and!; [done | done |].
  apply Hsame. simpl. intros f g Hf Hg.
  by_cases_in Hf; by_cases_in Hg; done.
Defined.

Section contributions_facts.
Context `{Externals} `{!ParseFrame}.

Lemma layoutContributions_fields order :
  ∀ traceFile parsed,
    layoutContributions order traceFile = inr parsed →
    ∃ contributions,
      sstruct_Fields (MainType parsed)
      = sstruct_Fields (MainType traceFile) ++ concat contributions
      ∧ Forall2
          (λ entry fields,
             ∃ file file',
               parseAttributes file (ToCamelCase (fst entry)) "Layout"
                 (trace_LayoutAttributes_Names (snd entry))
               = inr (fields, file'))
          order contributions.
Proof.
  induction order as [|[name trace] rest IH]; intros traceFile parsed; simpl.
  - intros [= <-]. exists []. split; [by rewrite app_nil_r | constructor].
  - destruct (parseAttributes _ _ _ _) as [e|[fields file]] eqn:Hparse; [done |].
    intros (contributions & Hfields & Hall)%IH.
    exists (fields :: contributions). split.
    + rewrite Hfields. simpl.
      rewrite (parseAttributes_MainType _ _ _ _ _ _ Hparse).
      by rewrite <- app_assoc.
    + constructor; [by exists traceFile, file | done].
Qed.

End contributions_facts.

(** X17.  Before they are sorted, the fields gathered for the layout are
    the fields parsed from the layout's own attributes followed, for each
    trace in the order in which the traces are visited, by the fields
    parsed from the layout attributes of that trace under the camel-cased
    name of the trace and the prefix Layout. *)
Theorem X17_layout_gathers_contributions_in_order `{Externals} `{!ParseFrame}
    (r : Renderer) (order : list (string * Trace)) (parsed : typeFile) :
  layoutParsed r order = inr parsed →
  ∃ own contributions,
    sstruct_Fields (MainType parsed) = own ++ concat contributions
    ∧ (∃ file file',
         parseAttributes file "Layout" "Layout"
           (Layout_LayoutAttributes_Names (root_Schema (root r)))
         = inr (own, file'))
    ∧ Forall2
        (λ entry fields,
           ∃ file file',
             parseAttributes file (ToCamelCase (fst entry)) "Layout"
               (trace_LayoutAttributes_Names (snd entry))
             = inr (fields, file'))
        order contributions.
Proof.
  unfold layoutParsed.
  destruct (parseAttributes _ _ _ _) as [e|[own file]] eqn:Hparse; [done |].
  intros (contributions & Hfields & Hall)%layoutContributions_fields.
  exists own, contributions. split_and!; [| by eexists _, _ | done].
  rewrite Hfields. simpl.
  by rewrite (parseAttributes_MainType _ _ _ _ _ _ Hparse).
Qed.

Lemma X17_layout_gathers_contributions_in_order_witness :
  let E := Reference.externals Reference.acceptAll in
  ∃ parsed,
    @layoutParsed E Examples.shapesRenderer
      [("b", Examples.shapesB); ("a", Examples.shapesA)] = inr parsed
    ∧ length (sstruct_Fields (MainType parsed)) = 2.
Proof.
  intros E. eexists. split; [reflexivity |].
  destruct (@X17_layout_gathers_contributions_in_order E (reference_parse_frame _)
              Examples.shapesRenderer
              [("b", Examples.shapesB); ("a", Examples.shapesA)] _ eq_refl)
    as (own & contributions & Hfields & _).
  reflexivity.
Defined.
